(** * A scoped, move-only file handle: [FileHandle] and its RAII wrapper [File]

    Shallow embedding of the second part of
    [src/smart_pointers/usecase_heavy_objects.cpp] (the RAII wrapper of a
    file): the C-style collaborator [FileHandle], the wrapper [File] that
    keeps a [std::unique_ptr<FileHandle>], and the blocks of [main] that
    use them directly (the first, the second and the fourth; the third
    puts [File]s in a [std::vector], whose moves on growth are the
    library's).  The first part of the same file, the grid shared by a
    cell average and an ODE solver, is embedded after it.

    - a [FileHandle] is a record with its one data member [name_];
    - a [std::unique_ptr<FileHandle>] is an [option loc]: [None] is
      [nullptr], [Some l] points to the heap object [l];
    - the program state carries the heap of [FileHandle] objects, the live
      [File] objects by address, the text written to [std::cout] and the
      trace of the calls the wrapper made on its collaborator;
    - member functions are actions of a state monad with two ways of not
      returning: a thrown exception (with the state at the throw) and
      undefined behaviour. *)

From Stdlib Require Import Ascii.
From stdpp Require Import gmap strings list.

(** ** Exceptions and outcomes *)

(** [runtime_error] is the exception [main] throws.  [ResourceUnavailable]
    and [UseAfterRelease] are the two failure kinds of the wrapper's design;
    no function of the source throws them. *)
Inductive exn : Type :=
  | ResourceUnavailable
  | UseAfterRelease
  | runtime_error (what : string).

#[global] Instance exn_eq_dec : EqDecision exn.
Proof. solve_decision. Defined.

(** The result of running an action on a state: it returns, it throws, or
    its behaviour is undefined (a null or dangling pointer is dereferenced,
    an object is used outside its lifetime). *)
Inductive outcome (S A : Type) : Type :=
  | Ret (a : A) (s : S)
  | Throw (e : exn) (s : S)
  | Undef.
Arguments Ret {S A} a s.
Arguments Throw {S A} e s.
Arguments Undef {S A}.

Definition M (S A : Type) : Type := S → outcome S A.

#[global] Instance M_ret {S} : MRet (M S) := λ A a s, Ret a s.

#[global] Instance M_bind {S} : MBind (M S) := λ A B k m s,
  match m s with
  | Ret a s' => k a s'
  | Throw e s' => Throw e s'
  | Undef => Undef
  end.

Definition throw {S A} (e : exn) : M S A := λ s, Throw e s.

Definition undef {S A} : M S A := λ _, Undef.

(** [try { m } catch (...) { }] *)
Definition try_catch_all {S} (m : M S unit) : M S unit :=
  λ s, match m s with
       | Throw _ s' => Ret tt s'
       | r => r
       end.

(** Run [cleanup] when [m] is left, whichever way it is left, and go on the
    way [m] was left: what the language does with the destructor of an
    object of automatic storage duration at the end of its block. *)
Definition at_scope_exit {S} (m cleanup : M S unit) : M S unit :=
  λ s, match m s with
       | Ret a s' => cleanup s'
       | Throw e s' =>
           match cleanup s' with
           | Ret _ s'' => Throw e s''
           | _ => Undef
           end
       | Undef => Undef
       end.

(** Run [cleanup] only when [m] throws, then go on throwing: what the
    language does with the members of an object whose constructor body
    throws. *)
Definition on_throw {S} (m cleanup : M S unit) : M S unit :=
  λ s, match m s with
       | Throw e s' =>
           match cleanup s' with
           | Ret _ s'' => Throw e s''
           | _ => Undef
           end
       | r => r
       end.

(** A property of the state an action leaves, whichever way it leaves. *)
Definition leaves {S A} (P : S → Prop) (r : outcome S A) : Prop :=
  match r with
  | Ret _ s' | Throw _ s' => P s'
  | Undef => True
  end.

(** ** The collaborator: [class FileHandle] *)

(** The text written to [std::cout]. *)
Definition ostream : Type := string.

Record FileHandle : Type := { name_ : string }.

(** [FileHandle foo;] : the default member initializer of [name_]. *)
Definition FileHandle_default : FileHandle := {| name_ := "uninitialized." |}.

(** The character ["\n"]. *)
Definition nl : string := String "010"%char "".

(** Each member function takes the object and [std::cout] and gives both
    back. *)
Definition FileHandle_open (name : string) (this : FileHandle) (out : ostream)
  : FileHandle * ostream :=
  let out := out +:+ "opening: " +:+ name +:+ nl in
  ({| name_ := name |}, out).

Definition FileHandle_close (this : FileHandle) (out : ostream)
  : FileHandle * ostream :=
  let out := out +:+ "closing: " +:+ name_ this +:+ nl in
  ({| name_ := "closed." |}, out).

Definition FileHandle_write (this : FileHandle) (out : ostream)
  : FileHandle * ostream :=
  let out := out +:+ "writing to: " +:+ name_ this +:+ nl in
  (this, out).

(** The two-phase open/close interface [File] consumes.  [h_open] is the
    one operation a C library reports a failure from; [FileHandle] is the
    instance of the source. *)
Class Collaborator (H : Type) : Type := {
  h_default : H;
  h_open : string → H → ostream → (exn + H) * ostream;
  h_close : H → ostream → H * ostream;
  h_write : H → ostream → H * ostream;
}.

#[global] Instance FileHandle_collaborator : Collaborator FileHandle := {
  h_default := FileHandle_default;
  h_open name this out :=
    let r := FileHandle_open name this out in (inr r.1, r.2);
  h_close := FileHandle_close;
  h_write := FileHandle_write;
}.

(** ** The program state *)

(** Heap objects are named by the serial number of their allocation, which
    is never given out again: a location names one resource for good. *)
Abbreviation loc := nat.

(** The address of a [File] object. *)
Abbreviation addr := nat.

(** The calls [File] makes on its collaborator, in order. *)
Inductive event : Type :=
  | Opened (l : loc) (name : string)
  | OpenFailed (l : loc) (name : string) (e : exn)
  | Closed (l : loc)
  | Written (l : loc).

#[global] Instance event_eq_dec : EqDecision event.
Proof. solve_decision. Defined.

Record state (H : Type) : Type := State {
  heap : gmap loc H;                (* objects made by [std::make_unique] *)
  next : loc;                       (* the next serial number *)
  files : gmap addr (option loc);   (* the member [fh_] of each live [File] *)
  cout : ostream;
  trace : list event;
}.
Arguments State {H} _ _ _ _ _.
Arguments heap {H} _.
Arguments next {H} _.
Arguments files {H} _.
Arguments cout {H} _.
Arguments trace {H} _.

Definition init {H} : state H :=
  {| heap := ∅; next := 0; files := ∅; cout := ""; trace := [] |}.

(** How often a resource was opened (with success) and closed. *)
Definition is_open (l : loc) (e : event) : bool :=
  match e with Opened l' _ => bool_decide (l' = l) | _ => false end.

Definition is_close (l : loc) (e : event) : bool :=
  match e with Closed l' => bool_decide (l' = l) | _ => false end.

Definition opens (l : loc) (tr : list event) : nat :=
  length (List.filter (is_open l) tr).

Definition closes (l : loc) (tr : list event) : nat :=
  length (List.filter (is_close l) tr).

(** ** The wrapper: [class File] *)

Section File.
Context {H : Type} `{!Collaborator H}.

Implicit Types (s : state H) (this other : addr) (l : loc)
  (fh : option loc) (name : string).

(** *** [std::unique_ptr<FileHandle>] and the heap *)

(** [std::make_unique<FileHandle>()] *)
Definition make_unique : M (state H) loc := λ s,
  Ret (next s)
    {| heap := <[next s := h_default]> (heap s); next := S (next s);
       files := files s; cout := cout s; trace := trace s |}.

(** The deleter of the unique pointer: nothing for [nullptr]. *)
Definition delete_ptr fh : M (state H) unit := λ s,
  match fh with
  | None => Ret tt s
  | Some l =>
      Ret tt {| heap := delete l (heap s); next := next s;
                files := files s; cout := cout s; trace := trace s |}
  end.

(** Reading and writing the member [fh_] of the object at [this]; there
    is no member to read outside the lifetime of the object. *)
Definition get_fh this : M (state H) (option loc) := λ s,
  match files s !! this with
  | Some fh => Ret fh s
  | None => Undef
  end.

Definition set_fh this fh : M (state H) unit := λ s,
  match files s !! this with
  | Some _ =>
      Ret tt {| heap := heap s; next := next s;
                files := <[this := fh]> (files s);
                cout := cout s; trace := trace s |}
  | None => Undef
  end.

(** [fh_->m()] : dereferencing [nullptr] is undefined. *)
Definition arrow {A} fh (m : loc → M (state H) A) : M (state H) A :=
  match fh with
  | Some l => m l
  | None => undef
  end.

(** The three calls on the collaborator, through a pointer. *)
Definition call_open name l : M (state H) unit := λ s,
  match heap s !! l with
  | None => Undef
  | Some h =>
      match h_open name h (cout s) with
      | (inr h', out) =>
          Ret tt {| heap := <[l := h']> (heap s); next := next s;
                    files := files s; cout := out;
                    trace := trace s ++ [Opened l name] |}
      | (inl e, out) =>
          Throw e {| heap := heap s; next := next s;
                     files := files s; cout := out;
                     trace := trace s ++ [OpenFailed l name e] |}
      end
  end.

Definition call_close l : M (state H) unit := λ s,
  match heap s !! l with
  | None => Undef
  | Some h =>
      let '(h', out) := h_close h (cout s) in
      Ret tt {| heap := <[l := h']> (heap s); next := next s;
                files := files s; cout := out;
                trace := trace s ++ [Closed l] |}
  end.

Definition call_write l : M (state H) unit := λ s,
  match heap s !! l with
  | None => Undef
  | Some h =>
      let '(h', out) := h_write h (cout s) in
      Ret tt {| heap := <[l := h']> (heap s); next := next s;
                files := files s; cout := out;
                trace := trace s ++ [Written l] |}
  end.

(** *** Lifetime of a [File] object *)

(** The lifetime of the object at [this] begins, its member [fh_]
    initialized with [fh]; the storage must hold no live object. *)
Definition begin_lifetime this fh : M (state H) unit := λ s,
  match files s !! this with
  | Some _ => Undef
  | None =>
      Ret tt {| heap := heap s; next := next s;
                files := <[this := fh]> (files s);
                cout := cout s; trace := trace s |}
  end.

Definition end_lifetime this : M (state H) unit := λ s,
  Ret tt {| heap := heap s; next := next s;
            files := delete this (files s);
            cout := cout s; trace := trace s |}.

(** The member [fh_] is destroyed (the unique pointer deletes what it
    points to) and the lifetime of the object ends. *)
Definition destroy_members this : M (state H) unit :=
  fh ← get_fh this;
  delete_ptr fh;;
  end_lifetime this.

(** [fh_ = std::move(other.fh_)] : [reset(other.fh_.release())]. *)
Definition unique_ptr_move_assign this other : M (state H) unit :=
  p ← get_fh other;
  set_fh other None;;
  old ← get_fh this;
  set_fh this p;;
  delete_ptr old.

(** *** The member functions *)

(** [File(std::string name) : fh_(std::make_unique<FileHandle>())
      { fh_->open(std::move(name)); }] : the member initializer, then the
    body; when the body throws, the destructor of [File] does not run,
    only the member is destroyed. *)
Definition File_ctor_body this name : M (state H) unit :=
  fh ← get_fh this;
  arrow fh (call_open name).

Definition File_ctor this name : M (state H) unit :=
  l ← make_unique;
  begin_lifetime this (Some l);;
  on_throw (File_ctor_body this name) (destroy_members this).

(** [~File() { if (fh_ != nullptr) { fh_->close(); } }] *)
Definition File_dtor this : M (state H) unit :=
  fh ← get_fh this;
  (if decide (fh ≠ None) then arrow fh call_close else mret tt);;
  destroy_members this.

(** [File &operator=(File &&other)] *)
Definition File_move_assign this other : M (state H) unit :=
  if decide (this = other) then mret tt
  else
    fh ← get_fh this;
    (if decide (fh ≠ None) then arrow fh call_close else mret tt);;
    unique_ptr_move_assign this other.

(** [File(File &&other) { *this = std::move(other); }] : the member
    [fh_] is default-initialized to [nullptr]. *)
Definition File_move_ctor this other : M (state H) unit :=
  begin_lifetime this None;;
  File_move_assign this other.

(** [void write() { fh_->write(); }] *)
Definition File_write this : M (state H) unit :=
  fh ← get_fh this;
  arrow fh call_write.

End File.

(** ** Clients of [File] *)

(** The operations [File] offers: the copy constructor and the copy
    assignment are deleted, a client cannot call them. *)
Inductive op : Type :=
  | Construct (this : addr) (name : string)     (* File this(name) *)
  | MoveConstruct (this other : addr)           (* File this(std::move(other)) *)
  | MoveAssign (this other : addr)              (* this = std::move(other) *)
  | CallWrite (this : addr)                      (* this.write() *)
  | Destroy (this : addr).                      (* the lifetime of this ends *)

(** Blocks of statements, as the last three blocks of [main] are written:
    a [File] declared in a block is destroyed when the block is left. *)
Inductive prog : Type :=
  | Skip
  | Seq (p q : prog)
  | Scope (this : addr) (name : string) (body : prog)
      (* { File this(name); body } *)
  | ScopeMove (this other : addr) (body : prog)
      (* { File this(std::move(other)); body } *)
  | Assign (this other : addr)           (* this = std::move(other); *)
  | WriteTo (this : addr)                (* this.write(); *)
  | ThrowExn (e : exn)                   (* throw e; *)
  | TryCatch (p : prog).                 (* try { p } catch (...) { } *)

Section Clients.
Context {H : Type} `{!Collaborator H}.

Definition step (o : op) : M (state H) unit :=
  match o with
  | Construct this name => File_ctor this name
  | MoveConstruct this other => File_move_ctor this other
  | MoveAssign this other => File_move_assign this other
  | CallWrite this => File_write this
  | Destroy this => File_dtor this
  end.

Fixpoint run (ops : list op) : M (state H) unit :=
  match ops with
  | [] => mret tt
  | o :: ops => step o;; run ops
  end.

Fixpoint exec (p : prog) : M (state H) unit :=
  match p with
  | Skip => mret tt
  | Seq p q => exec p;; exec q
  | Scope this name body =>
      File_ctor this name;;
      at_scope_exit (exec body) (File_dtor this)
  | ScopeMove this other body =>
      File_move_ctor this other;;
      at_scope_exit (exec body) (File_dtor this)
  | Assign this other => File_move_assign this other
  | WriteTo this => File_write this
  | ThrowExn e => throw e
  | TryCatch p => try_catch_all (exec p)
  end.

(** *** What holds of every state a client can reach *)

Record wf (s : state H) : Prop := {
  (* every heap object is pointed to by a live [File] ... *)
  wf_heap_owned : ∀ l,
    is_Some (heap s !! l) → ∃ this, files s !! this = Some (Some l);
  (* ... no [File] points to a deleted object ... *)
  wf_owned_heap : ∀ this l,
    files s !! this = Some (Some l) → is_Some (heap s !! l);
  (* ... and no two of them point to the same one *)
  wf_unique : ∀ this other l,
    files s !! this = Some (Some l) → files s !! other = Some (Some l) →
    this = other;
  (* serial numbers not given out yet *)
  wf_fresh : ∀ l,
    (next s ≤ l)%nat → heap s !! l = None ∧ opens l (trace s) = 0;
  (* what is held was opened and is not closed *)
  wf_held : ∀ l,
    is_Some (heap s !! l) → opens l (trace s) = 1 ∧ closes l (trace s) = 0;
  (* what is not held was closed as often as it was opened *)
  wf_released : ∀ l,
    heap s !! l = None →
    closes l (trace s) = opens l (trace s) ∧ (opens l (trace s) ≤ 1)%nat;
}.

(** [s'] comes after [s]: what was opened by [s] is not opened again. *)
Definition extends (s s' : state H) : Prop :=
  (next s ≤ next s')%nat ∧
  ∀ l, (l < next s)%nat → opens l (trace s') = opens l (trace s).

(** The call a [File] makes when it lets go of what [fh] points to. *)
Definition closing (fh : option loc) : list event :=
  match fh with
  | Some l => [Closed l]
  | None => []
  end.

End Clients.

(** ** [main] *)

(** The first block: the raw [FileHandle], misused. *)
Definition main_block1 (out : ostream) : ostream :=
  let foo := FileHandle_default in                           (* FileHandle foo; *)
  let '(foo, out) := FileHandle_write foo out in
  let '(foo, out) := FileHandle_open "foo (fh)" foo out in
  let '(foo, out) := FileHandle_write foo out in
  let '(foo, out) := FileHandle_close foo out in
  let '(foo, out) := FileHandle_write foo out in
  let '(foo, out) := FileHandle_close foo out in
  let '(foo, out) := FileHandle_open "foo (reborn)" foo out in
  let bar := FileHandle_default in                           (* FileHandle bar; *)
  let '(bar, out) := FileHandle_open "bar (fh)" bar out in
  let foo := bar in                                          (* foo = bar; *)
  let '(foo, out) := FileHandle_close foo out in
  let '(bar, out) := FileHandle_close bar out in
  out.

(** The second block: [foo] lives at address 0, [bar] at address 1. *)
Definition main_block2 : prog :=
  Scope 0 "foo (file)"
    (Scope 1 "bar (file)"
       (Seq (WriteTo 1)
          (Seq (WriteTo 0)
             (Seq (Assign 0 1)
                (WriteTo 0))))).

(** The fourth block. *)
Definition main_block4 : prog :=
  TryCatch (Scope 0 "foo (exception)" (ThrowExn (runtime_error "oops."))).

(** ** States of the scenarios *)

(** After [File foo("foo"); File bar("bar");], [foo] at address 0 and [bar]
    at address 1. *)
Definition foo_bar : state FileHandle :=
  {| heap := {[0 := {| name_ := "foo" |}; 1 := {| name_ := "bar" |}]};
     next := 2;
     files := {[0 := Some 0; 1 := Some 1]};
     cout := "opening: foo" +:+ nl +:+ "opening: bar" +:+ nl;
     trace := [Opened 0 "foo"; Opened 1 "bar"] |}.

(** After [File foo("foo"); File bar(std::move(foo));]. *)
Definition foo_moved : state FileHandle :=
  {| heap := {[0 := {| name_ := "foo" |}]};
     next := 1;
     files := {[0 := None; 1 := Some 0]};
     cout := "opening: foo" +:+ nl;
     trace := [Opened 0 "foo"] |}.

(** ** What the calls print *)

(** The name a resource was opened with, read off the trace: the name of
    the last successful open of [l] (there is at most one), the empty
    string when there is none. *)
Definition name_of (l : loc) (tr : list event) : string :=
  foldl (λ acc e,
           match e with
           | Opened l' name => if decide (l' = l) then name else acc
           | _ => acc
           end) "" tr.

(** The line [FileHandle] prints for a call, given the calls before it.  A
    failed open is no call of a [FileHandle]: it has no line. *)
Definition line (before : list event) (e : event) : string :=
  match e with
  | Opened _ name => "opening: " +:+ name +:+ nl
  | OpenFailed _ _ _ => ""
  | Closed l => "closing: " +:+ name_of l before +:+ nl
  | Written l => "writing to: " +:+ name_of l before +:+ nl
  end.

(** The lines of a trace, in order, after the text [out]. *)
Fixpoint printed_after (before : list event) (out : ostream)
    (tr : list event) : ostream :=
  match tr with
  | [] => out
  | e :: tr => printed_after (before ++ [e]) (out +:+ line before e) tr
  end.

Definition printed (tr : list event) : ostream := printed_after [] "" tr.

(** [std::cout] holds the lines of the trace, and every [FileHandle] on the
    heap carries the name it was opened with. *)
Definition printed_ok (s : state FileHandle) : Prop :=
  cout s = printed (trace s) ∧
  ∀ l h, heap s !! l = Some h → name_of l (trace s) = name_ h.

(** What holds of every state a client of [File] over [FileHandle] can
    reach. *)
Definition reached_ok (s : state FileHandle) : Prop := wf s ∧ printed_ok s.

Section Released.
Context {H : Type} `{!Collaborator H}.

(** What a destructor or a move assignment does to the heap, to
    [std::cout] and to the trace: nothing, or one close of a resource that
    is then deleted. *)
Definition released (s s' : state H) : Prop :=
  (heap s' = heap s ∧ cout s' = cout s ∧ trace s' = trace s) ∨
  ∃ l h, heap s !! l = Some h ∧
         heap s' = delete l (heap s) ∧
         cout s' = (h_close h (cout s)).2 ∧
         trace s' = trace s ++ [Closed l].

End Released.

(** ** The grid and the solver: the first part of the source file *)

(** [int] is 32 bits wide. *)
Definition INT_MIN : Z := -2147483648.
Definition INT_MAX : Z := 2147483647.

(** What [std::vector<double>(n)] with [n] computed in [int] comes to: the
    vector, [std::length_error] for a negative [n] (it is converted to an
    unsigned size above the largest one), or undefined behaviour when the
    computation of [n] overflows. *)
Inductive made (A : Type) : Type :=
  | Made (a : A)
  | LengthError
  | Overflow.
Arguments Made {A} a.
Arguments LengthError {A}.
Arguments Overflow {A}.

(** [for (int i = 0; i < n; ++i) body], [n] a size that the loop does not
    change: [None] is undefined behaviour, of the body or of [++i] when
    [n] is above [INT_MAX]. *)
Fixpoint for_from {St : Type} (i count : nat) (body : nat → St → option St)
    (s : St) : option St :=
  match count with
  | 0 => Some s
  | S count => s' ← body i s; for_from (S i) count body s'
  end.

Definition for_int {St : Type} (n : nat) (body : nat → St → option St)
    (s : St) : option St :=
  if decide (Z.of_nat n ≤ INT_MAX)%Z then for_from 0 n body s else None.

Section Grid.
(** The properties proved of this part hold whatever [double] and its
    arithmetic are: the type, the constants [0.0] and [42.0] and the two
    operations are parameters.  A [std::shared_ptr<Grid>] is an
    [option Grid], [None] for the null pointer: the grid is not changed
    once it is made, so that sharing it cannot be observed. *)
Context {double : Type}.
Variables (zero forty_two : double) (add mul : double → double → double).

Record Grid : Type := { cell_centers : list double }.

(** [v[i] = x]: no bounds check, out of range is undefined. *)
Definition assign_at (v : list double) (i : nat) (x : double)
  : option (list double) :=
  if decide (i < length v) then Some (<[i := x]> v) else None.

(** [std::shared_ptr<Grid> make_uniform_grid(int nx, int ny)] *)
Definition make_uniform_grid (nx ny : Z) : made (option Grid) :=
  let n := (nx * ny)%Z in
  if decide (INT_MIN ≤ n ≤ INT_MAX)%Z then
    if decide (0 ≤ n)%Z then
      Made (Some {| cell_centers := replicate (Z.to_nat n) zero |})
    else LengthError
  else Overflow.

(** [void cell_average(std::vector<double> &u_bar, const Grid &grid,
    const F &f)] *)
Definition cell_average (u_bar : list double) (grid : Grid)
    (f : double → double) : option (list double) :=
  for_int (length (cell_centers grid))
    (λ i u_bar, c ← cell_centers grid !! i; assign_at u_bar i (f c))
    u_bar.

(** [class CellAverage] *)
Record CellAverage : Type := { CellAverage_grid_ : option Grid }.

(** [void operator()(std::vector<double> &u_bar, const F &f) const] *)
Definition CellAverage_call (this : CellAverage) (u_bar : list double)
    (f : double → double) : option (list double) :=
  grid ← CellAverage_grid_ this;
  cell_average u_bar grid f.

(** [class SpaceDependentRHS] *)
Record SpaceDependentRHS : Type := { SpaceDependentRHS_grid_ : option Grid }.

(** [void operator()(std::vector<double> &dudt) const] *)
Definition SpaceDependentRHS_call (this : SpaceDependentRHS)
    (dudt : list double) : option (list double) :=
  grid ← SpaceDependentRHS_grid_ this;
  for_int (length (cell_centers grid))
    (λ i dudt, assign_at dudt i forty_two)
    dudt.

(** [class SomeODESolver] *)
Record SomeODESolver : Type := { rhs_ : SpaceDependentRHS }.

(** [void operator()(std::vector<double> &u1,
    const std::vector<double> &u0, double dt) const], called on two
    vectors that are distinct objects, as [main] calls it: [u0] is not
    changed by the writes to [u1].  The result is the new [u1]. *)
Definition SomeODESolver_call (this : SomeODESolver)
    (u1 u0 : list double) (dt : double) : option (list double) :=
  u1 ← SpaceDependentRHS_call (rhs_ this) u1;
  for_int (length u1)
    (λ i u1, a ← u0 !! i; b ← u1 !! i; assign_at u1 i (add a (mul dt b)))
    u1.

(** The same member function on its two references: [u1] and [u0] are
    addresses of vectors in the store [vs], and may be one address.  Every
    read goes through the store, so that a write to [u1] is seen through
    [u0] when the two are one vector.  The result is the new store. *)
Definition SomeODESolver_operator (this : SomeODESolver)
    (vs : gmap nat (list double)) (u1 u0 : nat) (dt : double)
  : option (gmap nat (list double)) :=
  x ← vs !! u1;
  x ← SpaceDependentRHS_call (rhs_ this) x;
  for_int (length x)
    (λ i vs,
       x0 ← vs !! u0;
       x1 ← vs !! u1;
       a ← x0 !! i;
       b ← x1 !! i;
       x1 ← assign_at x1 i (add a (mul dt b));
       Some (<[u1 := x1]> vs))
    (<[u1 := x]> vs).

(** [SomeODESolver make_ode_solver(std::shared_ptr<Grid> grid)] *)
Definition make_ode_solver (grid : option Grid) : SomeODESolver :=
  let rhs := {| SpaceDependentRHS_grid_ := grid |} in
  {| rhs_ := rhs |}.

End Grid.

(** * Proofs *)

Section Proofs.
Context {H : Type} `{!Collaborator H}.

Implicit Types (s : state H) (this other : addr) (l : loc)
  (fh : option loc) (name : string).

(** ** Counting calls in a trace *)

Lemma opens_snoc l tr e :
  opens l (tr ++ [e]) = opens l tr + (if is_open l e then 1 else 0).
Proof.
  unfold opens. rewrite List.filter_app, length_app. simpl.
  by destruct (is_open l e).
Qed.

Lemma closes_snoc l tr e :
  closes l (tr ++ [e]) = closes l tr + (if is_close l e then 1 else 0).
Proof.
  unfold closes. rewrite List.filter_app, length_app. simpl.
  by destruct (is_close l e).
Qed.

Ltac counts :=
  rewrite ?opens_snoc, ?closes_snoc; simpl;
  repeat case_bool_decide; simplify_eq.

Ltac lookups H :=
  rewrite ?lookup_insert_is_Some, ?lookup_delete_is_Some,
    ?lookup_insert_Some, ?lookup_delete_Some,
    ?lookup_insert_None, ?lookup_delete_None in H.

(** ** What each member function computes *)

Ltac unfold_ops :=
  unfold File_ctor, File_ctor_body, File_dtor, File_move_assign,
    File_move_ctor, File_write, unique_ptr_move_assign, destroy_members,
    end_lifetime, on_throw, make_unique, begin_lifetime, get_fh, set_fh,
    delete_ptr, arrow, call_open, call_close, call_write, undef,
    mbind, mret, M_bind, M_ret.

Ltac step_map :=
  first [ rewrite lookup_insert_eq | rewrite lookup_delete_eq
        | rewrite lookup_insert_ne by congruence
        | rewrite lookup_delete_ne by congruence
        | match goal with
          | E : ?x = _ |- context [match ?x with _ => _ end] => rewrite E
          end ].

Ltac run_ops := unfold_ops; simpl; repeat (step_map; simpl).

Lemma File_ctor_ok s this name h' out :
  files s !! this = None →
  h_open name h_default (cout s) = (inr h', out) →
  File_ctor this name s =
    Ret tt {| heap := <[next s := h']> (heap s); next := S (next s);
              files := <[this := Some (next s)]> (files s); cout := out;
              trace := trace s ++ [Opened (next s) name] |}.
Proof.
  intros Hthis Hopen. run_ops. by rewrite insert_insert_eq.
Qed.

Lemma File_ctor_fail s this name e out :
  files s !! this = None →
  h_open name h_default (cout s) = (inl e, out) →
  File_ctor this name s =
    Throw e {| heap := delete (next s) (heap s); next := S (next s);
               files := files s; cout := out;
               trace := trace s ++ [OpenFailed (next s) name e] |}.
Proof.
  intros Hthis Hopen. run_ops.
  by rewrite delete_insert_eq, delete_insert_eq, (delete_id (files s)).
Qed.

Lemma File_dtor_owning s this l h :
  files s !! this = Some (Some l) →
  heap s !! l = Some h →
  File_dtor this s =
    Ret tt {| heap := delete l (heap s); next := next s;
              files := delete this (files s);
              cout := (h_close h (cout s)).2;
              trace := trace s ++ [Closed l] |}.
Proof.
  intros Hthis Hl. run_ops.
  destruct (h_close h (cout s)) as [h' out]; simpl. run_ops.
  by rewrite delete_insert_eq.
Qed.

Lemma File_dtor_empty s this :
  files s !! this = Some None →
  File_dtor this s =
    Ret tt {| heap := heap s; next := next s;
              files := delete this (files s);
              cout := cout s; trace := trace s |}.
Proof. intros Hthis. by run_ops. Qed.

Lemma File_move_assign_self s this : File_move_assign this this s = Ret tt s.
Proof. unfold File_move_assign. by rewrite decide_True. Qed.

Lemma File_move_assign_owning s this other l h fh :
  this ≠ other →
  files s !! this = Some (Some l) →
  heap s !! l = Some h →
  files s !! other = Some fh →
  File_move_assign this other s =
    Ret tt {| heap := delete l (heap s); next := next s;
              files := <[this := fh]> (<[other := None]> (files s));
              cout := (h_close h (cout s)).2;
              trace := trace s ++ [Closed l] |}.
Proof.
  intros Hne Hthis Hl Hother. unfold File_move_assign.
  rewrite decide_False by done. run_ops.
  destruct (h_close h (cout s)) as [h' out]; simpl. run_ops.
  by rewrite delete_insert_eq.
Qed.

Lemma File_move_assign_empty s this other fh :
  this ≠ other →
  files s !! this = Some None →
  files s !! other = Some fh →
  File_move_assign this other s =
    Ret tt {| heap := heap s; next := next s;
              files := <[this := fh]> (<[other := None]> (files s));
              cout := cout s; trace := trace s |}.
Proof.
  intros Hne Hthis Hother. unfold File_move_assign.
  rewrite decide_False by done. by run_ops.
Qed.

Lemma File_move_ctor_live s this other fh :
  files s !! this = None →
  files s !! other = Some fh →
  File_move_ctor this other s =
    Ret tt {| heap := heap s; next := next s;
              files := <[this := fh]> (<[other := None]> (files s));
              cout := cout s; trace := trace s |}.
Proof.
  intros Hthis Hother.
  assert (this ≠ other) by congruence.
  unfold File_move_ctor, File_move_assign. run_ops.
  rewrite decide_False by done. run_ops.
  by rewrite (insert_insert_ne _ other this), insert_insert_eq.
Qed.

Lemma File_write_owning s this l h :
  files s !! this = Some (Some l) →
  heap s !! l = Some h →
  File_write this s =
    Ret tt {| heap := <[l := (h_write h (cout s)).1]> (heap s);
              next := next s; files := files s;
              cout := (h_write h (cout s)).2;
              trace := trace s ++ [Written l] |}.
Proof.
  intros Hthis Hl. run_ops. by destruct (h_write h (cout s)).
Qed.

Lemma File_write_empty s this :
  files s !! this = Some None → File_write this s = Undef.
Proof. intros Hthis. by run_ops. Qed.

(** ** The invariant is kept *)

Lemma wf_init : wf (@init H).
Proof.
  constructor; simpl; intros; rewrite ?lookup_empty in *;
    try done; try (by destruct H0); auto.
Qed.

Lemma wf_ctor_ok s this name h' out :
  wf s →
  files s !! this = None →
  wf {| heap := <[next s := h']> (heap s); next := S (next s);
        files := <[this := Some (next s)]> (files s); cout := out;
        trace := trace s ++ [Opened (next s) name] |}.
Proof.
  intros [Ho Hh Hu Hf Hd Hr] Hthis.
  pose proof (Hf (next s) (le_n _)) as [Hn Hn'].
  pose proof (Hr _ Hn) as [Hn'' _].
  constructor; simpl.
  - intros l Hl. lookups Hl. destruct Hl as [<-|[? Hl]].
    + exists this. by rewrite lookup_insert_eq.
    + destruct (Ho _ Hl) as [a Ha]. exists a.
      rewrite lookup_insert_ne; [done|congruence].
  - intros a l Ha. lookups Ha. rewrite lookup_insert_is_Some.
    destruct Ha as [[-> ?]|[? Ha]]; simplify_eq; [by left|].
    right. split; [|by eapply Hh]. intros <-.
    apply Hh in Ha. rewrite Hn in Ha. by destruct Ha.
  - intros a b l Ha Hb. lookups Ha. lookups Hb.
    destruct Ha as [[-> ?]|[? Ha]], Hb as [[-> ?]|[? Hb]];
      simplify_eq; eauto.
    + apply Hh in Hb. rewrite Hn in Hb. by destruct Hb.
    + apply Hh in Ha. rewrite Hn in Ha. by destruct Ha.
  - intros l Hl. destruct (Hf l) as [? ?]; [lia|].
    rewrite lookup_insert_ne by lia. split; [done|].
    counts; lia.
  - intros l Hl. lookups Hl. destruct Hl as [<-|[? Hl]].
    + counts; lia.
    + destruct (Hd _ Hl). counts; lia.
  - intros l Hl. lookups Hl. destruct Hl as [Hl ?].
    destruct (Hr _ Hl). counts; lia.
Qed.

Lemma wf_ctor_fail s name e out :
  wf s →
  wf {| heap := delete (next s) (heap s); next := S (next s);
        files := files s; cout := out;
        trace := trace s ++ [OpenFailed (next s) name e] |}.
Proof.
  intros [Ho Hh Hu Hf Hd Hr].
  pose proof (Hf (next s) (le_n _)) as [Hn Hn'].
  rewrite (delete_id _ _ Hn).
  constructor; simpl; auto.
  - intros l Hl. destruct (Hf l) as [? ?]; [lia|]. split; [done|].
    counts; lia.
  - intros l Hl. destruct (Hd _ Hl). counts; lia.
  - intros l Hl. destruct (Hr _ Hl). counts; lia.
Qed.

(** [this] closes what it holds and lets go of it. *)
Lemma wf_release s this l out :
  wf s →
  files s !! this = Some (Some l) →
  wf {| heap := delete l (heap s); next := next s;
        files := <[this := None]> (files s); cout := out;
        trace := trace s ++ [Closed l] |}.
Proof.
  intros [Ho Hh Hu Hf Hd Hr] Hthis.
  constructor; simpl.
  - intros l' Hl. lookups Hl. destruct Hl as [Hne Hl].
    destruct (Ho _ Hl) as [a Ha]. exists a.
    rewrite lookup_insert_ne; [done|]. intros <-. congruence.
  - intros a l' Ha. lookups Ha. destruct Ha as [[_ ?]|[Hne Ha]]; [done|].
    rewrite lookup_delete_is_Some. split; [|by eapply Hh].
    intros <-. by apply Hne, (Hu _ _ l).
  - intros a b l' Ha Hb. lookups Ha. lookups Hb.
    destruct Ha as [[_ ?]|[? Ha]], Hb as [[_ ?]|[? Hb]]; try done.
    by eapply Hu.
  - intros l' Hl. destruct (Hf l') as [? ?]; [lia|].
    rewrite lookup_delete_None. split; [by right|]. counts; lia.
  - intros l' Hl. lookups Hl. destruct Hl as [? Hl].
    destruct (Hd _ Hl). counts; lia.
  - intros l' Hl. lookups Hl. destruct Hl as [<-|Hl].
    + destruct (Hd l); [by eapply Hh|]. counts; lia.
    + destruct (Hr _ Hl). counts; [|lia].
      apply Hh in Hthis. rewrite Hl in Hthis. by destruct Hthis.
Qed.

Lemma wf_dtor_empty s this :
  wf s →
  files s !! this = Some None →
  wf {| heap := heap s; next := next s;
        files := delete this (files s); cout := cout s;
        trace := trace s |}.
Proof.
  intros [Ho Hh Hu Hf Hd Hr] Hthis.
  constructor; simpl; auto.
  - intros l Hl. destruct (Ho _ Hl) as [a Ha]. exists a.
    rewrite lookup_delete_ne; [done|]. intros <-. congruence.
  - intros a l Ha. lookups Ha. destruct Ha as [? Ha]. by eapply Hh.
  - intros a b l Ha Hb. lookups Ha. lookups Hb.
    destruct Ha as [? Ha], Hb as [? Hb]. by eapply Hu.
Qed.

(** The pointers after [this = std::move(other)], once [this] has let go
    of what it held. *)
Lemma wf_moved_files s this other fh :
  this ≠ other →
  files s !! other = Some fh →
  (∀ l, files s !! this ≠ Some (Some l)) →
  (∀ l, is_Some (heap s !! l) → ∃ a, files s !! a = Some (Some l)) →
  (∀ a l, files s !! a = Some (Some l) → is_Some (heap s !! l)) →
  (∀ a b l, files s !! a = Some (Some l) → files s !! b = Some (Some l) →
            a = b) →
  let fs := <[this := fh]> (<[other := None]> (files s)) in
  (∀ l, is_Some (heap s !! l) → ∃ a, fs !! a = Some (Some l)) ∧
  (∀ a l, fs !! a = Some (Some l) → is_Some (heap s !! l)) ∧
  (∀ a b l, fs !! a = Some (Some l) → fs !! b = Some (Some l) → a = b).
Proof.
  intros Hne Hother Hthis Ho Hh Hu fs. unfold fs. split_and!.
  - intros l Hl. destruct (Ho _ Hl) as [a Ha].
    destruct (decide (a = other)) as [->|].
    + exists this. rewrite lookup_insert_eq. congruence.
    + exists a. rewrite !lookup_insert_ne; [done|done|].
      intros <-. by eapply Hthis.
  - intros a l Ha. lookups Ha.
    destruct Ha as [[<- ->]|[? [[_ ?]|[? Ha]]]]; simplify_eq; eauto.
  - intros a b l Ha Hb. lookups Ha. lookups Hb.
    destruct Ha as [[<- ->]|[? [[_ ?]|[? Ha]]]],
             Hb as [[<- Hb]|[? [[_ ?]|[? Hb]]]]; simplify_eq; eauto.
    + exfalso. eauto.
    + exfalso. eauto.
Qed.

Lemma wf_move_empty s this other fh :
  wf s →
  this ≠ other →
  files s !! this = Some None →
  files s !! other = Some fh →
  wf {| heap := heap s; next := next s;
        files := <[this := fh]> (<[other := None]> (files s));
        cout := cout s; trace := trace s |}.
Proof.
  intros [Ho Hh Hu Hf Hd Hr] Hne Hthis Hother.
  destruct (wf_moved_files s this other fh) as (?&?&?); auto.
  { intros l. congruence. }
  constructor; simpl; auto.
Qed.

Lemma wf_dtor_owning s this l out :
  wf s →
  files s !! this = Some (Some l) →
  wf {| heap := delete l (heap s); next := next s;
        files := delete this (files s); cout := out;
        trace := trace s ++ [Closed l] |}.
Proof.
  intros Hwf Hthis.
  pose proof (wf_dtor_empty _ this (wf_release _ _ _ out Hwf Hthis)) as Hw.
  simpl in Hw. rewrite delete_insert_eq in Hw.
  apply Hw, lookup_insert_eq.
Qed.

Lemma wf_move_owning s this other l fh out :
  wf s →
  this ≠ other →
  files s !! this = Some (Some l) →
  files s !! other = Some fh →
  wf {| heap := delete l (heap s); next := next s;
        files := <[this := fh]> (<[other := None]> (files s));
        cout := out; trace := trace s ++ [Closed l] |}.
Proof.
  intros Hwf Hne Hthis Hother.
  pose proof (wf_move_empty _ this other fh
                (wf_release _ _ _ out Hwf Hthis) Hne) as Hw.
  simpl in Hw.
  rewrite (insert_insert_ne _ other this) in Hw by done.
  rewrite insert_insert_eq in Hw.
  apply Hw; [apply lookup_insert_eq|by rewrite lookup_insert_ne].
Qed.

Lemma wf_write s l h h' out :
  wf s →
  heap s !! l = Some h →
  wf {| heap := <[l := h']> (heap s); next := next s; files := files s;
        cout := out; trace := trace s ++ [Written l] |}.
Proof.
  intros [Ho Hh Hu Hf Hd Hr] Hl.
  assert (Hdom : ∀ l', is_Some (<[l := h']> (heap s) !! l')
                       ↔ is_Some (heap s !! l')).
  { intros l'. rewrite lookup_insert_is_Some.
    destruct (decide (l = l')) as [<-|]; [rewrite Hl|]; intuition eauto. }
  assert (Hnone : ∀ l', <[l := h']> (heap s) !! l' = None
                        ↔ heap s !! l' = None).
  { intros l'. rewrite !eq_None_not_Some. by rewrite Hdom. }
  constructor; simpl; auto.
  - intros l' Hl'. apply Ho. by apply Hdom.
  - intros a l' Ha. apply Hdom. by eapply Hh.
  - intros l' Hl'. destruct (Hf _ Hl'). rewrite Hnone. split; [done|].
    counts; lia.
  - intros l' Hl'. apply Hdom in Hl'. destruct (Hd _ Hl'). counts; lia.
  - intros l' Hl'. apply Hnone in Hl'. destruct (Hr _ Hl'). counts; lia.
Qed.


Lemma wf_begin_empty s this :
  wf s →
  files s !! this = None →
  wf {| heap := heap s; next := next s;
        files := <[this := None]> (files s); cout := cout s;
        trace := trace s |}.
Proof.
  intros [Ho Hh Hu Hf Hd Hr] Hthis.
  constructor; simpl; auto.
  - intros l Hl. destruct (Ho _ Hl) as [a Ha]. exists a.
    rewrite lookup_insert_ne; [done|congruence].
  - intros a l Ha. lookups Ha. destruct Ha as [[_ ?]|[_ Ha]]; [done|].
    by eapply Hh.
  - intros a b l Ha Hb. lookups Ha. lookups Hb.
    destruct Ha as [[_ ?]|[_ Ha]], Hb as [[_ ?]|[_ Hb]]; try done.
    by eapply Hu.
Qed.

(** ** Later states *)

Lemma extends_refl s : extends s s.
Proof. by split. Qed.

Lemma extends_trans s1 s2 s3 : extends s1 s2 → extends s2 s3 → extends s1 s3.
Proof.
  intros [Hn1 Ho1] [Hn2 Ho2]. split; [lia|].
  intros l Hl. rewrite Ho2 by lia. by apply Ho1.
Qed.

Ltac solve_extends := split; simpl; [lia | intros; counts; lia].

(** ** Every member function keeps the invariant *)

Lemma File_ctor_wf s this name :
  wf s → leaves (λ s', wf s' ∧ extends s s') (File_ctor this name s).
Proof.
  intros Hwf. destruct (files s !! this) as [fh|] eqn:Hthis.
  { by run_ops. }
  destruct (h_open name h_default (cout s)) as [[e|h'] out] eqn:Hopen.
  - rewrite (File_ctor_fail _ _ _ _ _ Hthis Hopen). simpl.
    split; [by apply wf_ctor_fail | solve_extends].
  - rewrite (File_ctor_ok _ _ _ _ _ Hthis Hopen). simpl.
    split; [by apply wf_ctor_ok | solve_extends].
Qed.

Lemma File_dtor_live s this fh :
  wf s →
  files s !! this = Some fh →
  ∃ s', File_dtor this s = Ret tt s' ∧ wf s' ∧ extends s s' ∧
        files s' = delete this (files s) ∧
        trace s' = trace s ++ closing fh.
Proof.
  intros Hwf Hthis. destruct fh as [l|].
  - destruct (wf_owned_heap _ Hwf _ _ Hthis) as [h Hl].
    rewrite (File_dtor_owning _ _ _ _ Hthis Hl). eexists. split; [done|].
    simpl. split_and!; [by apply wf_dtor_owning | solve_extends | done..].
  - rewrite (File_dtor_empty _ _ Hthis). eexists. split; [done|].
    simpl. rewrite app_nil_r.
    split_and!; [by apply wf_dtor_empty | solve_extends | done..].
Qed.

Lemma File_dtor_wf s this :
  wf s → leaves (λ s', wf s' ∧ extends s s') (File_dtor this s).
Proof.
  intros Hwf. destruct (files s !! this) as [fh|] eqn:Hthis.
  - destruct (File_dtor_live _ _ _ Hwf Hthis) as (s'&->&?&?&_). by simpl.
  - by run_ops.
Qed.

Lemma File_move_assign_live s this other fh_this fh :
  wf s →
  this ≠ other →
  files s !! this = Some fh_this →
  files s !! other = Some fh →
  ∃ s', File_move_assign this other s = Ret tt s' ∧ wf s' ∧ extends s s' ∧
        files s' = <[this := fh]> (<[other := None]> (files s)) ∧
        trace s' = trace s ++ closing fh_this.
Proof.
  intros Hwf Hne Hthis Hother. destruct fh_this as [l|].
  - destruct (wf_owned_heap _ Hwf _ _ Hthis) as [h Hl].
    rewrite (File_move_assign_owning _ _ _ _ _ _ Hne Hthis Hl Hother).
    eexists. split; [done|]. simpl.
    split_and!; [by apply wf_move_owning | solve_extends | done..].
  - rewrite (File_move_assign_empty _ _ _ _ Hne Hthis Hother).
    eexists. split; [done|]. simpl. rewrite app_nil_r.
    split_and!; [by apply wf_move_empty | solve_extends | done..].
Qed.

Lemma dom_moved_files s this other fh_this fh :
  files s !! this = Some fh_this →
  files s !! other = Some fh →
  dom (<[this := fh]> (<[other := None]> (files s))) = dom (files s).
Proof.
  intros Hthis Hother. rewrite !dom_insert_L.
  apply (elem_of_dom_2 (D:=gset nat)) in Hthis, Hother.
  apply set_eq. intros a. rewrite !elem_of_union, !elem_of_singleton.
  intuition congruence.
Qed.

Lemma File_move_assign_wf s this other :
  wf s →
  leaves (λ s', wf s' ∧ extends s s' ∧ dom (files s') = dom (files s))
    (File_move_assign this other s).
Proof.
  intros Hwf. destruct (decide (this = other)) as [->|Hne].
  { rewrite File_move_assign_self. simpl.
    split_and!; [done|apply extends_refl|done]. }
  destruct (files s !! this) as [fh_this|] eqn:Hthis;
    [destruct (files s !! other) as [fh|] eqn:Hother|].
  - destruct (File_move_assign_live _ _ _ _ _ Hwf Hne Hthis Hother)
      as (s'&->&?&?&Hfiles&_). simpl. rewrite Hfiles.
    split_and!; [done..|by eapply dom_moved_files].
  - unfold File_move_assign. rewrite decide_False by done.
    destruct fh_this as [l|]; run_ops; [|done].
    destruct (wf_owned_heap _ Hwf _ _ Hthis) as [h Hl]. run_ops.
    destruct (h_close h (cout s)); simpl. by run_ops.
  - unfold File_move_assign. rewrite decide_False by done. by run_ops.
Qed.

Lemma File_move_ctor_fresh s this other fh :
  wf s →
  files s !! this = None →
  files s !! other = Some fh →
  ∃ s', File_move_ctor this other s = Ret tt s' ∧ wf s' ∧ extends s s' ∧
        files s' = <[this := fh]> (<[other := None]> (files s)) ∧
        trace s' = trace s.
Proof.
  intros Hwf Hthis Hother.
  rewrite (File_move_ctor_live _ _ _ _ Hthis Hother).
  eexists. split; [done|]. simpl. split_and!; [|solve_extends|done..].
  assert (Hne : this ≠ other) by congruence.
  pose proof (wf_move_empty _ this other fh
                (wf_begin_empty _ _ Hwf Hthis) Hne) as Hw.
  simpl in Hw.
  rewrite (insert_insert_ne _ other this) in Hw by done.
  rewrite insert_insert_eq in Hw.
  apply Hw; [apply lookup_insert_eq|by rewrite lookup_insert_ne].
Qed.

Lemma File_move_ctor_wf s this other :
  wf s →
  leaves (λ s', wf s' ∧ extends s s' ∧
                dom (files s') = {[this]} ∪ dom (files s))
    (File_move_ctor this other s).
Proof.
  intros Hwf. unfold File_move_ctor, mbind, M_bind, begin_lifetime.
  destruct (files s !! this) as [fh|] eqn:Hthis; [done|].
  pose proof (File_move_assign_wf _ this other
                (wf_begin_empty _ _ Hwf Hthis)) as Hl.
  destruct (File_move_assign this other _) as [[] s'|e s'|]; simpl in *;
    [| |done]; destruct Hl as (?&Hext&->); rewrite dom_insert_L;
    (split_and!; [done| |done]);
    (eapply extends_trans; [|exact Hext]); solve_extends.
Qed.

Lemma File_write_live s this l :
  wf s →
  files s !! this = Some (Some l) →
  ∃ s', File_write this s = Ret tt s' ∧ wf s' ∧ extends s s' ∧
        files s' = files s ∧ trace s' = trace s ++ [Written l].
Proof.
  intros Hwf Hthis.
  destruct (wf_owned_heap _ Hwf _ _ Hthis) as [h Hl].
  rewrite (File_write_owning _ _ _ _ Hthis Hl). eexists. split; [done|].
  simpl. split_and!; [by eapply wf_write | solve_extends | done..].
Qed.

Lemma File_write_wf s this :
  wf s →
  leaves (λ s', wf s' ∧ extends s s' ∧ dom (files s') = dom (files s))
    (File_write this s).
Proof.
  intros Hwf. destruct (files s !! this) as [[l|]|] eqn:Hthis.
  - destruct (File_write_live _ _ _ Hwf Hthis) as (s'&->&?&?&Hfiles&_).
    simpl. by rewrite Hfiles.
  - by rewrite File_write_empty.
  - by run_ops.
Qed.

(** ** Sequences of operations *)

Lemma leaves_impl {A} (P Q : state H → Prop) (r : outcome (state H) A) :
  (∀ s, P s → Q s) → leaves P r → leaves Q r.
Proof. intros HPQ. destruct r; simpl; auto. Qed.

Lemma step_wf o s : wf s → leaves (λ s', wf s' ∧ extends s s') (step o s).
Proof.
  intros Hwf.
  destruct o; simpl; eauto using File_ctor_wf, File_dtor_wf.
  - eapply leaves_impl; [|by apply File_move_ctor_wf]. by intros ? (?&?&?).
  - eapply leaves_impl; [|by apply File_move_assign_wf]. by intros ? (?&?&?).
  - eapply leaves_impl; [|by apply File_write_wf]. by intros ? (?&?&?).
Qed.

Lemma run_wf ops s : wf s → leaves (λ s', wf s' ∧ extends s s') (run ops s).
Proof.
  revert s. induction ops as [|o ops IH]; intros s Hwf; simpl.
  { split; [done|apply extends_refl]. }
  unfold mbind, M_bind. pose proof (step_wf o s Hwf) as Ho.
  destruct (step o s) as [[] s1|e s1|]; simpl in *; [|done..].
  destruct Ho as [Hwf1 Hext1]. specialize (IH s1 Hwf1).
  destruct (run ops s1) as [[] s2|e s2|]; simpl in *; [| |done];
    destruct IH; eauto using extends_trans.
Qed.


(** ** Blocks *)

Lemma File_ctor_live s this name fh :
  files s !! this = Some fh → File_ctor this name s = Undef.
Proof. intros Hthis. by run_ops. Qed.

(** Only the constructor from a name can throw. *)
Lemma File_move_assign_nothrow s this other e s' :
  File_move_assign this other s ≠ Throw e s'.
Proof.
  unfold File_move_assign. case_decide; [done|].
  unfold_ops; simpl. repeat (case_match; simpl; try done).
Qed.

Lemma File_move_ctor_nothrow s this other e s' :
  File_move_ctor this other s ≠ Throw e s'.
Proof.
  unfold File_move_ctor, mbind, M_bind, begin_lifetime.
  destruct (files s !! this); simpl; [done|].
  apply File_move_assign_nothrow.
Qed.

Lemma File_dtor_nothrow s this e s' : File_dtor this s ≠ Throw e s'.
Proof. unfold_ops; simpl. repeat (case_match; simpl; try done). Qed.

Lemma File_write_nothrow s this e s' : File_write this s ≠ Throw e s'.
Proof. unfold_ops; simpl. repeat (case_match; simpl; try done). Qed.

Lemma File_move_ctor_live_undef s this other fh :
  files s !! this = Some fh → File_move_ctor this other s = Undef.
Proof. intros Hthis. by run_ops. Qed.

(** Leaving the block that declared [this]. *)
Lemma at_scope_exit_wf s s1 this (body : M (state H) unit) :
  this ∉ dom (files s) →
  dom (files s1) = {[this]} ∪ dom (files s) →
  extends s s1 →
  leaves (λ s', wf s' ∧ extends s1 s' ∧ dom (files s') = dom (files s1))
    (body s1) →
  leaves (λ s', wf s' ∧ extends s s' ∧ dom (files s') = dom (files s))
    (at_scope_exit body (File_dtor this) s1).
Proof.
  intros Hthis Hdom Hext Hbody. unfold at_scope_exit.
  destruct (body s1) as [[] s2|e s2|]; simpl in *; [| |done];
    destruct Hbody as (Hwf2&Hext2&Hdom2);
    (assert (is_Some (files s2 !! this)) as [fh Hfh]
       by (apply (elem_of_dom (D:=gset nat)); rewrite Hdom2, Hdom;
           apply elem_of_union_l, elem_of_singleton; done));
    destruct (File_dtor_live _ _ _ Hwf2 Hfh) as (s3&->&?&?&Hfiles&_);
    simpl; (split_and!; [done|eauto using extends_trans|]);
    rewrite Hfiles, dom_delete_L, Hdom2, Hdom;
    apply set_eq; intros a;
    rewrite elem_of_difference, elem_of_union, elem_of_singleton;
    (split; [intros [[->|?] ?]; [done|done]|]);
    (intros Ha; split; [by right|]; by intros ->).
Qed.

Lemma exec_wf p s :
  wf s →
  leaves (λ s', wf s' ∧ extends s s' ∧ dom (files s') = dom (files s))
    (exec p s).
Proof.
  revert s. induction p as [|p IHp q IHq|this name body IH
                            |this other body IH|this other|this|e|p IH];
    intros s Hwf; simpl.
  - split_and!; [done|apply extends_refl|done].
  - unfold mbind, M_bind. specialize (IHp s Hwf).
    destruct (exec p s) as [[] s1|e s1|]; simpl in *; [|done..].
    destruct IHp as (Hwf1&Hext1&Hdom1). specialize (IHq s1 Hwf1).
    destruct (exec q s1) as [[] s2|e s2|]; simpl in *; [| |done];
      destruct IHq as (?&?&->); eauto using extends_trans.
  - unfold mbind, M_bind.
    destruct (files s !! this) as [fh|] eqn:Hthis.
    { by rewrite (File_ctor_live _ _ _ _ Hthis). }
    pose proof (File_ctor_wf s this name Hwf) as Hctor.
    destruct (h_open name h_default (cout s)) as [[e|h'] out] eqn:Hopen.
    + rewrite (File_ctor_fail _ _ _ _ _ Hthis Hopen) in *. simpl in *.
      by destruct Hctor.
    + rewrite (File_ctor_ok _ _ _ _ _ Hthis Hopen) in *. simpl in Hctor.
      destruct Hctor as [Hwf1 Hext1].
      apply at_scope_exit_wf; [by apply not_elem_of_dom| |done|by apply IH].
      simpl. apply dom_insert_L.
  - unfold mbind, M_bind.
    destruct (files s !! this) as [fh|] eqn:Hthis.
    { by rewrite (File_move_ctor_live_undef _ _ _ _ Hthis). }
    pose proof (File_move_ctor_wf s this other Hwf) as Hctor.
    pose proof (File_move_ctor_nothrow s this other) as Hnothrow.
    destruct (File_move_ctor this other s) as [[] s1|e s1|]; simpl in *;
      [|by destruct (Hnothrow e s1)|done].
    destruct Hctor as (Hwf1&Hext1&Hdom1).
    apply at_scope_exit_wf; [by apply not_elem_of_dom|done|done|].
    by apply IH.
  - by apply File_move_assign_wf.
  - by apply File_write_wf.
  - unfold throw. simpl. split_and!; [done|apply extends_refl|done].
  - unfold try_catch_all. specialize (IH s Hwf).
    by destruct (exec p s) as [[] s1|e s1|].
Qed.


(** ** Consequences of the invariant *)

Lemma reachable_wf ops : leaves wf (run ops (@init H)).
Proof.
  eapply leaves_impl; [|apply run_wf, wf_init]. by intros ? [? _].
Qed.

Lemma wf_counts s l :
  wf s →
  (opens l (trace s) ≤ 1)%nat ∧
  ((∃ this, files s !! this = Some (Some l)) →
   opens l (trace s) = 1 ∧ closes l (trace s) = 0) ∧
  ((∀ this, files s !! this ≠ Some (Some l)) →
   closes l (trace s) = opens l (trace s)).
Proof.
  intros Hwf. split_and!.
  - destruct (heap s !! l) as [h|] eqn:Hl.
    + destruct (wf_held _ Hwf l) as [-> _]; [by rewrite Hl|lia].
    + by destruct (wf_released _ Hwf l Hl).
  - intros [this Hthis]. eapply wf_held, wf_owned_heap; eauto.
  - intros Hnone. destruct (heap s !! l) as [h|] eqn:Hl.
    + destruct (wf_heap_owned _ Hwf l) as [this Hthis]; [by rewrite Hl|].
      by destruct (Hnone this).
    + by destruct (wf_released _ Hwf l Hl).
Qed.

Lemma wf_no_files_counts s l :
  wf s → files s = ∅ →
  (opens l (trace s) ≤ 1)%nat ∧ closes l (trace s) = opens l (trace s).
Proof.
  intros Hwf Hfiles. destruct (wf_counts s l Hwf) as (?&_&Hc).
  split; [done|]. apply Hc. intros this. by rewrite Hfiles, lookup_empty.
Qed.

(** * The claims *)

(** C1. A resource opened by a successful construction is closed exactly
    once by the time the handle that holds it is destroyed.  In every
    state a sequence of constructions, transfers, writes and destructions
    reaches: the destructor of an Owning handle returns after exactly one
    call of close, on the resource it holds, the destructor of an Empty
    handle returns after no call; no resource is opened twice, a resource
    a live handle holds is not closed yet, and a resource no live handle
    holds was closed exactly as often as it was opened, that is once if it
    was opened.  In a program of blocks, left by the end of the block or
    by an exception, no handle is live at the end and every resource that
    was opened has been closed exactly once. *)
Theorem closed_exactly_once :
  (∀ (ops : list op) this,
     leaves (λ s : state H,
       (∀ l, files s !! this = Some (Some l) →
             ∃ s', File_dtor this s = Ret tt s' ∧
                   trace s' = trace s ++ [Closed l] ∧
                   files s' !! this = None) ∧
       (files s !! this = Some None →
        ∃ s', File_dtor this s = Ret tt s' ∧
              trace s' = trace s ∧ files s' !! this = None))
       (run ops init)) ∧
  (∀ ops : list op,
     leaves (λ s : state H, ∀ l,
       (opens l (trace s) ≤ 1)%nat ∧
       ((∃ this, files s !! this = Some (Some l)) →
        opens l (trace s) = 1 ∧ closes l (trace s) = 0) ∧
       ((∀ this, files s !! this ≠ Some (Some l)) →
        closes l (trace s) = opens l (trace s)))
       (run ops init)) ∧
  (∀ p : prog,
     leaves (λ s : state H,
       files s = ∅ ∧
       ∀ l, (opens l (trace s) ≤ 1)%nat ∧
            closes l (trace s) = opens l (trace s))
       (exec p init)).
Proof.
  split_and!.
  - intros ops this. eapply leaves_impl; [|apply reachable_wf].
    intros s Hwf. split.
    + intros l Hthis.
      destruct (File_dtor_live _ _ _ Hwf Hthis) as (s'&?&_&_&Hfiles&?).
      exists s'. split_and!; [done..|]. rewrite Hfiles.
      apply lookup_delete_eq.
    + intros Hthis.
      destruct (File_dtor_live _ _ _ Hwf Hthis) as (s'&?&_&_&Hfiles&Htr).
      exists s'. simpl in Htr. rewrite app_nil_r in Htr.
      split_and!; [done..|]. rewrite Hfiles. apply lookup_delete_eq.
  - intros ops. eapply leaves_impl; [|apply reachable_wf].
    intros s Hwf l. by apply wf_counts.
  - intros p. eapply leaves_impl; [|apply exec_wf, wf_init].
    intros s (Hwf&_&Hdom). simpl in Hdom. rewrite dom_empty_L in Hdom.
    apply dom_empty_inv_L in Hdom. split; [done|].
    intros l. by apply wf_no_files_counts.
Qed.


Lemma run_cons_ret o ops s s1 :
  step o s = Ret tt s1 → run (o :: ops) s = run ops s1.
Proof. intros Hstep. simpl. unfold mbind, M_bind. by rewrite Hstep. Qed.

Lemma run_ret_wf ops s : run ops (@init H) = Ret tt s → wf s.
Proof. intros Hrun. pose proof (reachable_wf ops) as Hr. by rewrite Hrun in Hr. Qed.

Lemma File_move_assign_trace s this other :
  leaves (λ s', ∃ fh, trace s' = trace s ++ closing fh)
    (File_move_assign this other s).
Proof.
  unfold File_move_assign. case_decide.
  { exists None. simpl. by rewrite app_nil_r. }
  unfold_ops; simpl.
  destruct (files s !! this) as [[l|]|] eqn:Hthis; simpl; [| |done].
  - destruct (heap s !! l) as [h|]; simpl; [|done].
    destruct (h_close h (cout s)); simpl.
    destruct (files s !! other) eqn:Hother; simpl; [|done].
    repeat (step_map; simpl). by exists (Some l).
  - destruct (files s !! other) eqn:Hother; simpl; [|done].
    repeat (step_map; simpl). exists None. simpl. by rewrite app_nil_r.
Qed.

Lemma File_move_ctor_trace s this other :
  leaves (λ s', trace s' = trace s) (File_move_ctor this other s).
Proof.
  unfold File_move_ctor, mbind, M_bind, begin_lifetime.
  destruct (files s !! this) eqn:Hthis; [done|].
  destruct (decide (this = other)) as [<-|Hne].
  { by rewrite File_move_assign_self. }
  destruct (files s !! other) as [fh|] eqn:Hother.
  - erewrite File_move_assign_empty; [done|done|..]; simpl.
    + apply lookup_insert_eq.
    + by rewrite lookup_insert_ne.
  - unfold File_move_assign. rewrite decide_False by done. by run_ops.
Qed.

(** C3. A transfer into a target that holds a resource [l] closes [l]
    first, with one call, and then adopts what the source holds, which is
    another resource: the move assignment is the call of close on [l]
    followed by the move of the pointer, it returns with [Closed l] as the
    one new call, [l] closed exactly once and deleted, the target holding
    what the source held and the source Empty.  No transfer, by
    assignment or by construction, in any state, makes more than one call
    of close. *)
Theorem transfer_into_owning s this other l fh :
  wf s →
  this ≠ other →
  files s !! this = Some (Some l) →
  files s !! other = Some fh →
  fh ≠ Some l ∧
  File_move_assign this other s
    = (call_close l;; unique_ptr_move_assign this other) s ∧
  (∃ s', File_move_assign this other s = Ret tt s' ∧
         trace s' = trace s ++ [Closed l] ∧
         closes l (trace s') = 1 ∧
         heap s' !! l = None ∧
         files s' !! this = Some fh ∧
         files s' !! other = Some None) ∧
  (∀ (s0 : state H) a b,
     leaves (λ s', ∃ evs, trace s' = trace s0 ++ evs ∧
                          (evs = [] ∨ ∃ l0, evs = [Closed l0]))
       (File_move_assign a b s0) ∧
     leaves (λ s', trace s' = trace s0) (File_move_ctor a b s0)).
Proof.
  intros Hwf Hne Hthis Hother. split_and!.
  - intros ->. by apply Hne, (wf_unique _ Hwf _ _ l).
  - unfold File_move_assign. rewrite decide_False by done.
    unfold mbind, M_bind, get_fh. by rewrite Hthis.
  - destruct (wf_owned_heap _ Hwf _ _ Hthis) as [h Hl].
    rewrite (File_move_assign_owning _ _ _ _ _ _ Hne Hthis Hl Hother).
    eexists. split; [done|]. simpl. split_and!.
    + done.
    + destruct (wf_held _ Hwf l) as [_ Hc]; [by rewrite Hl|].
      counts; lia.
    + apply lookup_delete_eq.
    + apply lookup_insert_eq.
    + rewrite lookup_insert_ne by done. apply lookup_insert_eq.
  - intros s0 a b. split; [|apply File_move_ctor_trace].
    eapply leaves_impl; [|apply File_move_assign_trace].
    intros s' [[l0|] Htr]; [exists [Closed l0]|exists []]; eauto.
Qed.

(** C5. In every state a sequence of operations reaches from the empty
    program state, no two live handles hold the same resource; the
    operations are those of [op], among which there is no copy.  After a
    transfer of a resource, by assignment or by construction, the target
    is the one handle that holds it. *)
Theorem at_most_one_owner :
  (∀ ops : list op,
     leaves (λ s : state H, ∀ a b l,
       files s !! a = Some (Some l) → files s !! b = Some (Some l) → a = b)
       (run ops init)) ∧
  (∀ (s : state H) this other fh_this l,
     wf s → this ≠ other →
     files s !! this = Some fh_this → files s !! other = Some (Some l) →
     ∃ s', File_move_assign this other s = Ret tt s' ∧
           ∀ a, files s' !! a = Some (Some l) ↔ a = this) ∧
  (∀ (s : state H) this other l,
     wf s →
     files s !! this = None → files s !! other = Some (Some l) →
     ∃ s', File_move_ctor this other s = Ret tt s' ∧
           ∀ a, files s' !! a = Some (Some l) ↔ a = this).
Proof.
  assert (Honly : ∀ (s s' : state H) this other l,
            wf s' →
            files s' = <[this := Some l]> (<[other := None]> (files s)) →
            ∀ a, files s' !! a = Some (Some l) ↔ a = this).
  { intros s s' this other l Hwf' Hfiles a.
    assert (Hthis : files s' !! this = Some (Some l)).
    { rewrite Hfiles. apply lookup_insert_eq. }
    split; [|by intros ->]. intros Ha. by eapply wf_unique. }
  split_and!.
  - intros ops. eapply leaves_impl; [|apply reachable_wf].
    intros s Hwf a b l. apply wf_unique, Hwf.
  - intros s this other fh_this l Hwf Hne Hthis Hother.
    destruct (File_move_assign_live _ _ _ _ _ Hwf Hne Hthis Hother)
      as (s'&?&?&_&?&_). eauto.
  - intros s this other l Hwf Hthis Hother.
    destruct (File_move_ctor_fresh _ _ _ _ Hwf Hthis Hother)
      as (s'&?&?&_&?&_). eauto.
Qed.

(** C6, as the code has it.  [write] on an Empty handle dereferences the
    null pointer: the behaviour is undefined, the call neither returns nor
    throws, and no failure is surfaced to the caller. *)
Theorem write_on_empty_undefined s this :
  files s !! this = Some None →
  File_write this s = Undef ∧
  (∀ e s', File_write this s ≠ Throw e s').
Proof.
  intros Hthis. split; [by apply File_write_empty|].
  apply File_write_nothrow.
Qed.

(** C8. Moving a handle into itself returns at once and changes nothing:
    the program state after the call is the state before it, so the
    handle holds what it held and no call of close is made. *)
Theorem self_transfer_noop s this : File_move_assign this this s = Ret tt s.
Proof. apply File_move_assign_self. Qed.

End Proofs.

(** ** The collaborator of the source *)

Lemma FileHandle_h_open name (h : FileHandle) out :
  h_open name h out = (inr {| name_ := name |}, out +:+ "opening: " +:+ name +:+ nl).
Proof. reflexivity. Qed.

Lemma File_ctor_FileHandle (s : state FileHandle) this name :
  files s !! this = None →
  File_ctor this name s =
    Ret tt {| heap := <[next s := {| name_ := name |}]> (heap s);
              next := S (next s);
              files := <[this := Some (next s)]> (files s);
              cout := cout s +:+ "opening: " +:+ name +:+ nl;
              trace := trace s ++ [Opened (next s) name] |}.
Proof.
  intros Hthis. apply File_ctor_ok; [done|apply FileHandle_h_open].
Qed.

Lemma foo_bar_reached :
  run [Construct 0 "foo"; Construct 1 "bar"] init = Ret tt foo_bar.
Proof. vm_compute. reflexivity. Qed.

Lemma foo_moved_reached :
  run [Construct 0 "foo"; MoveConstruct 1 0] init = Ret tt foo_moved.
Proof. vm_compute. reflexivity. Qed.

(** The second and the fourth block of [main] run to their end, and print
    what the program prints. *)
Lemma main_block2_runs :
  exec main_block2 init =
    Ret tt {| heap := ∅; next := 2; files := ∅;
              cout := "opening: foo (file)" +:+ nl +:+
                      "opening: bar (file)" +:+ nl +:+
                      "writing to: bar (file)" +:+ nl +:+
                      "writing to: foo (file)" +:+ nl +:+
                      "closing: foo (file)" +:+ nl +:+
                      "writing to: bar (file)" +:+ nl +:+
                      "closing: bar (file)" +:+ nl;
              trace := [Opened 0 "foo (file)"; Opened 1 "bar (file)";
                        Written 1; Written 0; Closed 0; Written 1;
                        Closed 1] |}.
Proof. vm_compute. reflexivity. Qed.

Lemma main_block4_runs :
  exec main_block4 init =
    Ret tt {| heap := ∅; next := 1; files := ∅;
              cout := "opening: foo (exception)" +:+ nl +:+
                      "closing: foo (exception)" +:+ nl;
              trace := [Opened 0 "foo (exception)"; Closed 0] |}.
Proof. vm_compute. reflexivity. Qed.

(** C2. A transfer between two distinct handles makes the target hold what
    the source held, a resource or nothing, and leaves the source Empty,
    whether the target is an existing handle (move assignment) or a new one
    (move construction, which makes no call on the collaborator).  After
    constructing [A], moving [A] into a new handle [B] and destroying [A],
    the one call made is the open, [B] holds the resource; destroying [B]
    then closes that resource, with one call. *)
Theorem transfer_adopts_and_empties :
  (∀ (s : state FileHandle) this other fh_this fh,
     wf s → this ≠ other →
     files s !! this = Some fh_this → files s !! other = Some fh →
     ∃ s', File_move_assign this other s = Ret tt s' ∧
           files s' !! this = Some fh ∧ files s' !! other = Some None) ∧
  (∀ (s : state FileHandle) this other fh,
     files s !! this = None → files s !! other = Some fh →
     ∃ s', File_move_ctor this other s = Ret tt s' ∧
           files s' !! this = Some fh ∧ files s' !! other = Some None ∧
           trace s' = trace s) ∧
  (∀ (s : state FileHandle) A B name,
     A ≠ B → files s !! A = None → files s !! B = None →
     ∃ s1 s2,
       run [Construct A name; MoveConstruct B A; Destroy A] s = Ret tt s1 ∧
       trace s1 = trace s ++ [Opened (next s) name] ∧
       files s1 !! A = None ∧
       files s1 !! B = Some (Some (next s)) ∧
       File_dtor B s1 = Ret tt s2 ∧
       trace s2 = trace s1 ++ [Closed (next s)] ∧
       files s2 = files s).
Proof.
  split_and!.
  - intros s this other fh_this fh Hwf Hne Hthis Hother.
    destruct (File_move_assign_live _ _ _ _ _ Hwf Hne Hthis Hother)
      as (s'&?&_&_&Hfiles&_).
    exists s'. rewrite Hfiles. split_and!; [done|apply lookup_insert_eq|].
    rewrite lookup_insert_ne by done. apply lookup_insert_eq.
  - intros s this other fh Hthis Hother.
    assert (Hne : this ≠ other) by congruence.
    rewrite (File_move_ctor_live _ _ _ _ Hthis Hother).
    eexists. split; [done|]. simpl.
    split_and!; [apply lookup_insert_eq| |done].
    rewrite lookup_insert_ne by done. apply lookup_insert_eq.
  - intros s A B name Hne HA HB.
    erewrite run_cons_ret; [|by apply File_ctor_FileHandle].
    erewrite run_cons_ret; cycle 1.
    { simpl. apply File_move_ctor_live with (fh := Some (next s)); simpl.
      - by rewrite lookup_insert_ne.
      - apply lookup_insert_eq. }
    erewrite run_cons_ret; cycle 1.
    { simpl. apply File_dtor_empty. simpl.
      rewrite lookup_insert_ne by done. apply lookup_insert_eq. }
    simpl. eexists _, _. split; [done|]. simpl.
    split; [done|]. split; [apply lookup_delete_eq|].
    split; [rewrite lookup_delete_ne by done; apply lookup_insert_eq|].
    split.
    { eapply File_dtor_owning; simpl.
      - rewrite lookup_delete_ne by done. apply lookup_insert_eq.
      - apply lookup_insert_eq. }
    simpl. split; [done|].
    apply map_eq. intros i.
    destruct (decide (i = A)) as [->|];
      [|destruct (decide (i = B)) as [->|]]; by simplify_map_eq.
Qed.

(** C4. Constructing a [File] with a name returns, having made one call on
    the collaborator: the open, with that name, on a new [FileHandle].  The
    new handle is Owning: it points to that [FileHandle], whose name is the
    name given, and [std::cout] has the line of that one open more. *)
Theorem construct_opens_once (s : state FileHandle) this name :
  files s !! this = None →
  ∃ s', File_ctor this name s = Ret tt s' ∧
        trace s' = trace s ++ [Opened (next s) name] ∧
        files s' !! this = Some (Some (next s)) ∧
        heap s' !! next s = Some {| name_ := name |} ∧
        cout s' = cout s +:+ "opening: " +:+ name +:+ nl.
Proof.
  intros Hthis. rewrite (File_ctor_FileHandle _ _ _ Hthis).
  eexists. split; [done|]. simpl.
  split_and!; [done|apply lookup_insert_eq..|done].
Qed.

Lemma construct_opens_once_witness :
  files (@init FileHandle) !! 0 = None ∧
  ∃ s', File_ctor 0 "foo" (@init FileHandle) = Ret tt s' ∧
        trace s' = [Opened 0 "foo"] ∧
        files s' !! 0 = Some (Some 0) ∧
        heap s' !! 0 = Some {| name_ := "foo" |} ∧
        cout s' = "opening: foo" +:+ nl.
Proof.
  split; [reflexivity|].
  apply (construct_opens_once init 0 "foo"). reflexivity.
Defined.

(** C9. [FileHandle::open] returns a handle for every name, on every
    handle: it has no failure.  So the constructor of [File] returns for
    every name, and throws for none. *)
Theorem construct_never_fails (s : state FileHandle) this name :
  files s !! this = None →
  (∀ (h : FileHandle) out, ∃ h' out', h_open name h out = (inr h', out')) ∧
  (∃ s', File_ctor this name s = Ret tt s') ∧
  (∀ e s', File_ctor this name s ≠ Throw e s').
Proof.
  intros Hthis. rewrite (File_ctor_FileHandle _ _ _ Hthis).
  split_and!; [|by eexists|done].
  intros h out. eexists _, _. apply FileHandle_h_open.
Qed.

Lemma construct_never_fails_witness :
  files foo_moved !! 2 = None ∧
  (∀ (h : FileHandle) out, ∃ h' out', h_open "" h out = (inr h', out')) ∧
  (∃ s', File_ctor 2 "" foo_moved = Ret tt s') ∧
  (∀ e s', File_ctor 2 "" foo_moved ≠ Throw e s').
Proof.
  split; [reflexivity|].
  apply (construct_never_fails foo_moved 2 ""). reflexivity.
Defined.

(** C10. The member functions of [FileHandle] return on every handle.  On a
    default-constructed handle, [write] and [close] print the name
    "uninitialized."; a second [close] prints the name "closed."; [open]
    after [close] gives the handle the new name.  The first block of
    [main], which does all of this, runs to its end and prints ten lines. *)
Theorem FileHandle_total :
  (∀ out, FileHandle_write FileHandle_default out
          = (FileHandle_default,
             out +:+ "writing to: uninitialized." +:+ nl)) ∧
  (∀ out, FileHandle_close FileHandle_default out
          = ({| name_ := "closed." |},
             out +:+ "closing: uninitialized." +:+ nl)) ∧
  (∀ h out,
     let '(h1, out1) := FileHandle_close h out in
     FileHandle_close h1 out1
     = ({| name_ := "closed." |}, out1 +:+ "closing: closed." +:+ nl)) ∧
  (∀ h name out,
     let '(h1, out1) := FileHandle_close h out in
     FileHandle_open name h1 out1
     = ({| name_ := name |}, out1 +:+ "opening: " +:+ name +:+ nl)) ∧
  main_block1 "" =
    "writing to: uninitialized." +:+ nl +:+
    "opening: foo (fh)" +:+ nl +:+
    "writing to: foo (fh)" +:+ nl +:+
    "closing: foo (fh)" +:+ nl +:+
    "writing to: closed." +:+ nl +:+
    "closing: closed." +:+ nl +:+
    "opening: foo (reborn)" +:+ nl +:+
    "opening: bar (fh)" +:+ nl +:+
    "closing: bar (fh)" +:+ nl +:+
    "closing: bar (fh)" +:+ nl.
Proof. split_and!; reflexivity. Qed.

(** C6, as the claim states it, fails: [foo_moved] is the state after
    [File foo("foo"); File bar(std::move(foo));], the handle at address 0
    is Empty in it, and [write] on it does not throw [UseAfterRelease]. *)
Lemma write_on_empty_counterexample :
  ¬ (∀ (s : state FileHandle) this,
       files s !! this = Some None →
       ∃ s', File_write this s = Throw UseAfterRelease s').
Proof.
  intros Hclaim. destruct (Hclaim foo_moved 0) as [s' Hs']; [reflexivity|].
  vm_compute in Hs'. discriminate Hs'.
Qed.

Lemma write_on_empty_undefined_witness :
  files foo_moved !! 0 = Some None ∧
  File_write 0 foo_moved = Undef ∧
  (∀ e s', File_write 0 foo_moved ≠ Throw e s').
Proof.
  split; [reflexivity|].
  apply (write_on_empty_undefined foo_moved 0). reflexivity.
Defined.

Lemma transfer_into_owning_witness :
  wf foo_bar ∧ 1 ≠ 0 ∧
  files foo_bar !! 1 = Some (Some 1) ∧ files foo_bar !! 0 = Some (Some 0) ∧
  ∃ s', File_move_assign 1 0 foo_bar = Ret tt s' ∧
        trace s' = [Opened 0 "foo"; Opened 1 "bar"; Closed 1] ∧
        closes 1 (trace s') = 1 ∧
        heap s' !! 1 = None ∧
        files s' !! 1 = Some (Some 0) ∧
        files s' !! 0 = Some None.
Proof.
  assert (Hwf : wf foo_bar) by exact (run_ret_wf _ _ foo_bar_reached).
  split; [exact Hwf|]. split; [lia|]. split; [reflexivity|].
  split; [reflexivity|].
  apply (transfer_into_owning foo_bar 1 0 1 (Some 0) Hwf);
    [lia|reflexivity..].
Defined.

(** * More of the code *)

Section Frames.
Context {H : Type} `{!Collaborator H}.

Implicit Types (s : state H) (this other : addr) (l : loc)
  (fh : option loc) (name : string).

Ltac unfold_members :=
  unfold File_ctor, File_ctor_body, File_dtor, File_move_assign,
    File_move_ctor, File_write, unique_ptr_move_assign, destroy_members,
    end_lifetime, on_throw, make_unique, begin_lifetime, get_fh, set_fh,
    delete_ptr, arrow, call_open, call_close, call_write, undef,
    mbind, mret, M_bind, M_ret.

(** A move construction changes the pointers only. *)
Lemma File_move_ctor_frame s this other :
  leaves (λ s', heap s' = heap s ∧ next s' = next s ∧
                cout s' = cout s ∧ trace s' = trace s)
    (File_move_ctor this other s).
Proof.
  unfold File_move_ctor, mbind, M_bind, begin_lifetime.
  destruct (files s !! this) eqn:Hthis; [done|].
  destruct (decide (this = other)) as [<-|Hne].
  { by rewrite File_move_assign_self. }
  destruct (files s !! other) as [fh|] eqn:Hother.
  - erewrite File_move_assign_empty; [done|done|..]; simpl.
    + apply lookup_insert_eq.
    + by rewrite lookup_insert_ne.
  - unfold File_move_assign. rewrite decide_False by done.
    unfold_members; simpl. rewrite lookup_insert_eq; simpl.
    rewrite lookup_insert_ne by done. by rewrite Hother.
Qed.


Lemma File_dtor_released s this :
  wf s → leaves (released s) (File_dtor this s).
Proof.
  intros Hwf. destruct (files s !! this) as [[l|]|] eqn:Hthis.
  - destruct (wf_owned_heap _ Hwf _ _ Hthis) as [h Hl].
    rewrite (File_dtor_owning _ _ _ _ Hthis Hl). simpl.
    right. by exists l, h.
  - rewrite (File_dtor_empty _ _ Hthis). simpl. by left.
  - unfold_members; simpl. by rewrite Hthis.
Qed.

Lemma File_move_assign_released s this other :
  wf s → leaves (released s) (File_move_assign this other s).
Proof.
  intros Hwf. destruct (decide (this = other)) as [->|Hne].
  { rewrite File_move_assign_self. simpl. by left. }
  destruct (files s !! other) as [fh|] eqn:Hother.
  - destruct (files s !! this) as [[l|]|] eqn:Hthis.
    + destruct (wf_owned_heap _ Hwf _ _ Hthis) as [h Hl].
      rewrite (File_move_assign_owning _ _ _ _ _ _ Hne Hthis Hl Hother).
      simpl. right. by exists l, h.
    + rewrite (File_move_assign_empty _ _ _ _ Hne Hthis Hother).
      simpl. by left.
    + unfold File_move_assign. rewrite decide_False by done.
      unfold_members; simpl. by rewrite Hthis.
  - pose proof (File_move_assign_wf s this other Hwf) as Hl.
    destruct (File_move_assign this other s) as [[] s'|e s'|] eqn:Hrun;
      [| |done].
    + exfalso. revert Hrun. unfold File_move_assign.
      rewrite decide_False by done. unfold_members; simpl.
      destruct (files s !! this) as [[l|]|]; simpl; [| |done].
      * destruct (heap s !! l) as [h|]; simpl; [|done].
        destruct (h_close h (cout s)); simpl. by rewrite Hother.
      * by rewrite Hother.
    + by destruct (File_move_assign_nothrow s this other e s').
Qed.

Lemma File_write_frame s this :
  leaves (λ s', ∃ l h, files s !! this = Some (Some l) ∧
                       heap s !! l = Some h ∧
                       heap s' = <[l := (h_write h (cout s)).1]> (heap s) ∧
                       next s' = next s ∧ files s' = files s ∧
                       cout s' = (h_write h (cout s)).2 ∧
                       trace s' = trace s ++ [Written l])
    (File_write this s).
Proof.
  destruct (files s !! this) as [[l|]|] eqn:Hthis.
  - destruct (heap s !! l) as [h|] eqn:Hl.
    + rewrite (File_write_owning _ _ _ _ Hthis Hl). simpl. by exists l, h.
    + unfold_members; simpl. rewrite Hthis; simpl. by rewrite Hl.
  - by rewrite File_write_empty.
  - unfold_members; simpl. by rewrite Hthis.
Qed.

(** ** Properties kept along a program *)

Lemma leaves_bind {A B} (P Q : state H → Prop)
    (m : M (state H) A) (k : A → M (state H) B) s :
  leaves P (m s) →
  (∀ s', P s' → Q s') →
  (∀ a s', P s' → leaves Q (k a s')) →
  leaves Q ((m ≫= k) s).
Proof.
  intros Hm HPQ Hk. unfold mbind, M_bind.
  destruct (m s) as [a s'|e s'|]; simpl in *; auto.
Qed.

Lemma leaves_at_scope_exit (P : state H → Prop) (m cleanup : M (state H) unit) s :
  leaves P (m s) →
  (∀ s', P s' → leaves P (cleanup s')) →
  leaves P (at_scope_exit m cleanup s).
Proof.
  intros Hm Hc. unfold at_scope_exit.
  destruct (m s) as [[] s'|e s'|]; simpl in *; [by apply Hc| |done].
  specialize (Hc s' Hm). by destruct (cleanup s') as [[] s''|e' s''|].
Qed.

(** A property every member function keeps is kept by every sequence of
    operations and by every block. *)
Lemma run_keeps (P : state H → Prop) :
  (∀ s this name, P s → leaves P (File_ctor this name s)) →
  (∀ s this other, P s → leaves P (File_move_ctor this other s)) →
  (∀ s this other, P s → leaves P (File_move_assign this other s)) →
  (∀ s this, P s → leaves P (File_write this s)) →
  (∀ s this, P s → leaves P (File_dtor this s)) →
  ∀ ops s, P s → leaves P (run ops s).
Proof.
  intros Hc Hmc Hma Hw Hd ops.
  induction ops as [|o ops IH]; intros s HP; simpl; [done|].
  apply leaves_bind with (P := P); [|done|by intros _; apply IH].
  destruct o; simpl; auto.
Qed.

Lemma exec_keeps (P : state H → Prop) :
  (∀ s this name, P s → leaves P (File_ctor this name s)) →
  (∀ s this other, P s → leaves P (File_move_ctor this other s)) →
  (∀ s this other, P s → leaves P (File_move_assign this other s)) →
  (∀ s this, P s → leaves P (File_write this s)) →
  (∀ s this, P s → leaves P (File_dtor this s)) →
  ∀ p s, P s → leaves P (exec p s).
Proof.
  intros Hc Hmc Hma Hw Hd p.
  induction p as [|p IHp q IHq|this name body IH|this other body IH
                  |this other|this|e|p IH]; intros s HP; simpl; auto.
  - apply leaves_bind with (P := P); auto.
  - apply leaves_bind with (P := P); auto.
    intros _ s' HP'. apply leaves_at_scope_exit; auto.
  - apply leaves_bind with (P := P); auto.
    intros _ s' HP'. apply leaves_at_scope_exit; auto.
  - unfold try_catch_all. specialize (IH s HP).
    by destruct (exec p s) as [[] s'|e s'|].
Qed.

End Frames.

(** ** The text on [std::cout] *)

Lemma name_of_snoc l tr e :
  name_of l (tr ++ [e]) =
    match e with
    | Opened l' name => if decide (l' = l) then name else name_of l tr
    | _ => name_of l tr
    end.
Proof. unfold name_of. by rewrite foldl_app. Qed.

Lemma printed_after_snoc before out tr e :
  printed_after before out (tr ++ [e])
  = printed_after before out tr +:+ line (before ++ tr) e.
Proof.
  revert before out. induction tr as [|e' tr IH]; intros before out; simpl.
  { by rewrite app_nil_r. }
  rewrite IH. by rewrite <-app_assoc.
Qed.

Lemma printed_snoc tr e : printed (tr ++ [e]) = printed tr +:+ line tr e.
Proof. apply printed_after_snoc. Qed.

(** An open that is in the trace gives the resource its name, when the
    resource was opened once. *)
Lemma opens_ge_elem l name tr : Opened l name ∈ tr → (1 ≤ opens l tr)%nat.
Proof.
  induction tr as [|e tr IH] using rev_ind; [by intros ?%elem_of_nil|].
  rewrite elem_of_app, list_elem_of_singleton, opens_snoc.
  intros [Hin| <-]; [specialize (IH Hin); lia|].
  simpl. rewrite bool_decide_eq_true_2 by done. lia.
Qed.

Lemma name_of_opened l name tr :
  Opened l name ∈ tr → (opens l tr ≤ 1)%nat → name_of l tr = name.
Proof.
  induction tr as [|e tr IH] using rev_ind; [by intros ?%elem_of_nil|].
  rewrite elem_of_app, list_elem_of_singleton, opens_snoc, name_of_snoc.
  intros [Hin| <-] Hle.
  - pose proof (opens_ge_elem _ _ _ Hin).
    destruct e as [l' name'| | |]; simpl in *; try (apply IH; [done|lia]).
    case_decide; [|apply IH; [done|lia]].
    rewrite bool_decide_eq_true_2 in Hle by done. lia.
  - by rewrite decide_True.
Qed.

Lemma opened_name_of l tr :
  (1 ≤ opens l tr)%nat → Opened l (name_of l tr) ∈ tr.
Proof.
  induction tr as [|e tr IH] using rev_ind; [unfold opens; simpl; lia|].
  rewrite opens_snoc, name_of_snoc, elem_of_app, list_elem_of_singleton.
  intros Hle. destruct e as [l' name'| | |]; simpl in *;
    try (left; apply IH; lia).
  case_decide as Hl.
  - right. by subst.
  - rewrite bool_decide_eq_false_2 in Hle by done. left. apply IH. lia.
Qed.

(** ** [File] over [FileHandle]: what is printed *)

Lemma released_printed_ok (s s' : state FileHandle) :
  released s s' → printed_ok s → printed_ok s'.
Proof.
  intros [(Hheap&Hcout&Htrace)|(l&h&Hl&Hheap&Hcout&Htrace)] [Hc Hn].
  { split; [by rewrite Hcout, Htrace|]. rewrite Hheap, Htrace. done. }
  split.
  - rewrite Hcout, Htrace, printed_snoc. simpl.
    by rewrite Hc, (Hn _ _ Hl).
  - intros l' h'. rewrite Hheap, Htrace, lookup_delete_Some, name_of_snoc.
    intros [_ Hl']. by apply Hn.
Qed.


Lemma init_reached_ok : reached_ok init.
Proof.
  split; [apply wf_init|]. split; [done|].
  intros l h. simpl. by rewrite lookup_empty.
Qed.

Lemma File_ctor_reached_ok (s : state FileHandle) this name :
  reached_ok s → leaves reached_ok (File_ctor this name s).
Proof.
  intros [Hwf [Hc Hn]].
  pose proof (File_ctor_wf s this name Hwf) as Hwf'.
  destruct (files s !! this) as [fh|] eqn:Hthis.
  { by rewrite (File_ctor_live _ _ _ _ Hthis). }
  rewrite (File_ctor_FileHandle _ _ _ Hthis) in *. simpl in *.
  destruct Hwf' as [Hwf' _]. split; [done|]. split; simpl.
  - by rewrite printed_snoc, Hc.
  - intros l h. rewrite lookup_insert_Some, name_of_snoc.
    intros [[<- <-]|[Hne Hl]]; [by rewrite decide_True|].
    rewrite decide_False by done. by apply Hn.
Qed.

Lemma File_move_ctor_reached_ok (s : state FileHandle) this other :
  reached_ok s → leaves reached_ok (File_move_ctor this other s).
Proof.
  intros [Hwf [Hc Hn]].
  pose proof (File_move_ctor_wf s this other Hwf) as Hwf'.
  pose proof (File_move_ctor_frame s this other) as Hfr.
  destruct (File_move_ctor this other s) as [[] s'|e s'|]; simpl in *;
    [| |done]; destruct Hwf' as [Hwf' _], Hfr as (Hheap&_&Hcout&Htrace);
    (split; [done|]); (split; [by rewrite Hcout, Htrace|]);
    by rewrite Hheap, Htrace.
Qed.

Lemma File_move_assign_reached_ok (s : state FileHandle) this other :
  reached_ok s → leaves reached_ok (File_move_assign this other s).
Proof.
  intros [Hwf Hp].
  pose proof (File_move_assign_wf s this other Hwf) as Hwf'.
  pose proof (File_move_assign_released s this other Hwf) as Hrel.
  destruct (File_move_assign this other s) as [[] s'|e s'|]; simpl in *;
    [| |done]; destruct Hwf' as [Hwf' _];
    (split; [done|]); by eapply released_printed_ok.
Qed.

Lemma File_dtor_reached_ok (s : state FileHandle) this :
  reached_ok s → leaves reached_ok (File_dtor this s).
Proof.
  intros [Hwf Hp].
  pose proof (File_dtor_wf s this Hwf) as Hwf'.
  pose proof (File_dtor_released s this Hwf) as Hrel.
  destruct (File_dtor this s) as [[] s'|e s'|]; simpl in *;
    [| |done]; destruct Hwf' as [Hwf' _];
    (split; [done|]); by eapply released_printed_ok.
Qed.

Lemma File_write_reached_ok (s : state FileHandle) this :
  reached_ok s → leaves reached_ok (File_write this s).
Proof.
  intros [Hwf [Hc Hn]].
  pose proof (File_write_wf s this Hwf) as Hwf'.
  pose proof (File_write_frame s this) as Hfr.
  destruct (File_write this s) as [[] s'|e s'|]; simpl in *;
    [| |done]; destruct Hwf' as [Hwf' _],
      Hfr as (l&h&_&Hl&Hheap&_&_&Hcout&Htrace);
    (split; [done|]); simpl in *; split.
  - rewrite Hcout, Htrace, printed_snoc. simpl. by rewrite Hc, (Hn _ _ Hl).
  - intros l' h'. rewrite Hheap, Htrace, name_of_snoc, lookup_insert_Some.
    intros [[<- <-]|[_ Hl']]; by apply Hn.
  - rewrite Hcout, Htrace, printed_snoc. simpl. by rewrite Hc, (Hn _ _ Hl).
  - intros l' h'. rewrite Hheap, Htrace, name_of_snoc, lookup_insert_Some.
    intros [[<- <-]|[_ Hl']]; by apply Hn.
Qed.

Lemma run_reached_ok ops : leaves reached_ok (run ops (@init FileHandle)).
Proof.
  apply run_keeps; auto using File_ctor_reached_ok, File_move_ctor_reached_ok,
    File_move_assign_reached_ok, File_write_reached_ok, File_dtor_reached_ok,
    init_reached_ok.
Qed.

Lemma exec_reached_ok p : leaves reached_ok (exec p (@init FileHandle)).
Proof.
  apply exec_keeps; auto using File_ctor_reached_ok, File_move_ctor_reached_ok,
    File_move_assign_reached_ok, File_write_reached_ok, File_dtor_reached_ok,
    init_reached_ok.
Qed.

(** X1. Whatever a client does with [File]s, from the start of the
    program, [std::cout] holds exactly the lines of the calls made on the
    [FileHandle]s, in the order of the calls, each close and each write
    with the name its [FileHandle] was opened with. *)
Theorem output_is_the_trace :
  (∀ ops : list op,
     leaves (λ s : state FileHandle, cout s = printed (trace s))
       (run ops init)) ∧
  (∀ p : prog,
     leaves (λ s : state FileHandle, cout s = printed (trace s))
       (exec p init)).
Proof.
  split.
  - intros ops. eapply leaves_impl; [|apply run_reached_ok].
    by intros s [_ [? _]].
  - intros p. eapply leaves_impl; [|apply exec_reached_ok].
    by intros s [_ [? _]].
Qed.

(** X2. In every state a sequence of operations reaches, a [File] that
    is not Empty points to a [FileHandle] that is on the heap and carries a
    name it was opened with: never a handle that was not opened, never one
    that was closed. *)
Theorem held_handle_is_open :
  ∀ ops : list op,
    leaves (λ s : state FileHandle, ∀ this l,
      files s !! this = Some (Some l) →
      ∃ h, heap s !! l = Some h ∧
           Opened l (name_ h) ∈ trace s ∧
           closes l (trace s) = 0)
      (run ops init).
Proof.
  intros ops. eapply leaves_impl; [|apply run_reached_ok].
  intros s [Hwf [_ Hn]] this l Hthis.
  destruct (wf_owned_heap _ Hwf _ _ Hthis) as [h Hl].
  destruct (wf_held _ Hwf l) as [Ho Hc]; [by rewrite Hl|].
  exists h. split_and!; [done| |done].
  rewrite <-(Hn _ _ Hl). apply opened_name_of. lia.
Qed.

(** X3. In every state a sequence of operations reaches, a [File] that
    holds a resource prints the name it was constructed with: [write]
    returns after the line "writing to: " with that name and changes
    nothing else but the trace; the destructor returns after the line
    "closing: " with that name, and the [FileHandle] is deleted. *)
Theorem file_prints_its_name :
  ∀ ops : list op,
    leaves (λ s : state FileHandle, ∀ this l name,
      files s !! this = Some (Some l) →
      Opened l name ∈ trace s →
      (∃ s', File_write this s = Ret tt s' ∧
             cout s' = cout s +:+ "writing to: " +:+ name +:+ nl ∧
             trace s' = trace s ++ [Written l] ∧
             heap s' = heap s ∧ files s' = files s) ∧
      (∃ s', File_dtor this s = Ret tt s' ∧
             cout s' = cout s +:+ "closing: " +:+ name +:+ nl ∧
             trace s' = trace s ++ [Closed l] ∧
             heap s' = delete l (heap s) ∧
             files s' = delete this (files s)))
      (run ops init).
Proof.
  intros ops. eapply leaves_impl; [|apply run_reached_ok].
  intros s [Hwf [_ Hn]] this l name Hthis Hopened.
  destruct (wf_owned_heap _ Hwf _ _ Hthis) as [h Hl].
  destruct (wf_held _ Hwf l) as [Ho _]; [by rewrite Hl|].
  assert (Hname : name_ h = name).
  { rewrite <-(Hn _ _ Hl). apply name_of_opened; [done|lia]. }
  split.
  - rewrite (File_write_owning _ _ _ _ Hthis Hl). eexists. split; [done|].
    simpl. rewrite Hname. split_and!; [done..| |done].
    by apply insert_id.
  - rewrite (File_dtor_owning _ _ _ _ Hthis Hl). eexists. split; [done|].
    simpl. by rewrite Hname.
Qed.

Section MoreTransfers.
Context {H : Type} `{!Collaborator H}.

Implicit Types (s : state H) (this other : addr) (l : loc)
  (fh : option loc) (name : string).

(** X4. Moving a [File] into an Empty one and moving it back gives the
    program state before the two moves: the handle holds what it held, the
    other one is Empty again, and no call was made on the collaborator. *)
Theorem move_there_and_back s this other fh :
  this ≠ other →
  files s !! this = Some fh →
  files s !! other = Some None →
  (File_move_assign other this;; File_move_assign this other) s = Ret tt s.
Proof.
  intros Hne Hthis Hother. unfold mbind, M_bind.
  rewrite (File_move_assign_empty _ other this fh) by done.
  rewrite (File_move_assign_empty _ this other fh); simpl;
    [|done|by rewrite lookup_insert_ne, lookup_insert_eq
     |by rewrite lookup_insert_eq].
  destruct s as [hp nx fs co tr]; simpl in *. f_equal. f_equal.
  apply map_eq. intros i.
  destruct (decide (i = this)) as [->|];
    [|destruct (decide (i = other)) as [->|]]; by simplify_map_eq.
Qed.

(** X5. After [this = std::move(other)] with two distinct live [File]s,
    [other.write()] is undefined, whatever [other] held before. *)
Theorem write_after_move_undefined s this other fh_this fh :
  wf s →
  this ≠ other →
  files s !! this = Some fh_this →
  files s !! other = Some fh →
  (File_move_assign this other;; File_write other) s = Undef.
Proof.
  intros Hwf Hne Hthis Hother. unfold mbind, M_bind.
  destruct (File_move_assign_live _ _ _ _ _ Hwf Hne Hthis Hother)
    as (s'&->&_&_&Hfiles&_).
  apply File_write_empty. rewrite Hfiles.
  rewrite lookup_insert_ne by done. apply lookup_insert_eq.
Qed.

(** X6. A block that declares a [File] runs its destructor once when the
    body is left, by its end or by an exception, and is left the way the
    body was left: with the same exception if there is one.  The one call
    the destructor adds is the close of what the [File] holds at that
    point, if it holds something. *)
Theorem scope_runs_destructor s s1 this name body :
  wf s →
  File_ctor this name s = Ret tt s1 →
  match exec body s1 with
  | Ret _ s2 =>
      ∃ fh s3, files s2 !! this = Some fh ∧
               exec (Scope this name body) s = Ret tt s3 ∧
               trace s3 = trace s2 ++ closing fh ∧
               files s3 = delete this (files s2)
  | Throw e s2 =>
      ∃ fh s3, files s2 !! this = Some fh ∧
               exec (Scope this name body) s = Throw e s3 ∧
               trace s3 = trace s2 ++ closing fh ∧
               files s3 = delete this (files s2)
  | Undef => exec (Scope this name body) s = Undef
  end.
Proof.
  intros Hwf Hctor.
  pose proof (File_ctor_wf s this name Hwf) as Hwf1.
  rewrite Hctor in Hwf1. destruct Hwf1 as [Hwf1 _].
  assert (Hlive : this ∈ dom (files s1)).
  { destruct (files s !! this) as [fh|] eqn:Hthis.
    { by rewrite (File_ctor_live _ _ _ _ Hthis) in Hctor. }
    destruct (h_open name h_default (cout s)) as [[e|h'] out] eqn:Hopen.
    - by rewrite (File_ctor_fail _ _ _ _ _ Hthis Hopen) in Hctor.
    - rewrite (File_ctor_ok _ _ _ _ _ Hthis Hopen) in Hctor.
      injection Hctor as <-. simpl. rewrite dom_insert_L.
      apply elem_of_union_l. by apply elem_of_singleton. }
  pose proof (exec_wf body s1 Hwf1) as Hbody.
  simpl. unfold mbind, M_bind, at_scope_exit. rewrite Hctor.
  destruct (exec body s1) as [[] s2|e s2|]; simpl in *; [| |done];
    destruct Hbody as (Hwf2&_&Hdom); rewrite <-Hdom in Hlive;
    apply elem_of_dom in Hlive as [fh Hfh];
    destruct (File_dtor_live _ _ _ Hwf2 Hfh) as (s3&->&_&_&?&?);
    by exists fh, s3.
Qed.

(** X12. A program of blocks run in a state that satisfies the invariant
    leaves, by its end or by an exception, a state that satisfies it, with
    the same [File] objects live as before: a block destroys every [File]
    it declares and no other. *)
Theorem blocks_are_balanced s (p : prog) :
  wf s →
  leaves (λ s', wf s' ∧ dom (files s') = dom (files s)) (exec p s).
Proof.
  intros Hwf. eapply leaves_impl; [|by apply exec_wf]. by intros s' (?&_&?).
Qed.

End MoreTransfers.

Lemma move_there_and_back_witness :
  1 ≠ 0 ∧ files foo_moved !! 1 = Some (Some 0) ∧
  files foo_moved !! 0 = Some None ∧
  (File_move_assign 0 1;; File_move_assign 1 0) foo_moved = Ret tt foo_moved.
Proof.
  split; [lia|]. split; [reflexivity|]. split; [reflexivity|].
  apply (move_there_and_back foo_moved 1 0 (Some 0)); [lia|reflexivity..].
Defined.

Lemma write_after_move_undefined_witness :
  wf foo_bar ∧ 0 ≠ 1 ∧
  files foo_bar !! 0 = Some (Some 0) ∧ files foo_bar !! 1 = Some (Some 1) ∧
  (File_move_assign 0 1;; File_write 1) foo_bar = Undef.
Proof.
  assert (Hwf : wf foo_bar) by exact (run_ret_wf _ _ foo_bar_reached).
  split; [exact Hwf|]. split; [lia|]. split; [reflexivity|].
  split; [reflexivity|].
  apply (write_after_move_undefined foo_bar 0 1 (Some 0) (Some 1) Hwf);
    [lia|reflexivity..].
Defined.

Lemma scope_runs_destructor_witness :
  wf foo_moved ∧
  File_ctor 2 "foo (exception)" foo_moved
  = Ret tt {| heap := {[0 := {| name_ := "foo" |};
                        1 := {| name_ := "foo (exception)" |}]};
              next := 2;
              files := {[0 := None; 1 := Some 0; 2 := Some 1]};
              cout := "opening: foo" +:+ nl +:+
                      "opening: foo (exception)" +:+ nl;
              trace := [Opened 0 "foo"; Opened 1 "foo (exception)"] |} ∧
  ∃ fh s3,
    fh = Some 1 ∧
    exec (Scope 2 "foo (exception)" (ThrowExn (runtime_error "oops.")))
      foo_moved = Throw (runtime_error "oops.") s3 ∧
    trace s3 = [Opened 0 "foo"; Opened 1 "foo (exception)"; Closed 1] ∧
    files s3 = {[0 := None; 1 := Some 0]}.
Proof.
  assert (Hwf : wf foo_moved) by exact (run_ret_wf _ _ foo_moved_reached).
  assert (Hctor : File_ctor 2 "foo (exception)" foo_moved
    = Ret tt {| heap := {[0 := {| name_ := "foo" |};
                          1 := {| name_ := "foo (exception)" |}]};
                next := 2;
                files := {[0 := None; 1 := Some 0; 2 := Some 1]};
                cout := "opening: foo" +:+ nl +:+
                        "opening: foo (exception)" +:+ nl;
                trace := [Opened 0 "foo"; Opened 1 "foo (exception)"] |})
    by (vm_compute; reflexivity).
  split; [exact Hwf|]. split; [exact Hctor|].
  pose proof (scope_runs_destructor foo_moved _ 2 "foo (exception)"
                (ThrowExn (runtime_error "oops.")) Hwf Hctor) as Hs.
  simpl in Hs. destruct Hs as (fh&s3&Hfh&Hexec&Htr&Hfiles).
  exists fh, s3. split; [by vm_compute in Hfh; injection Hfh as <-|].
  split; [exact Hexec|].
  assert (fh = Some 1) as -> by (by vm_compute in Hfh; injection Hfh as <-).
  split; [exact Htr|]. rewrite Hfiles. by vm_compute.
Defined.

(** * The grid and the solver *)

Section Loops.
Context {double : Type}.

Implicit Types (u v : list double) (i j n : nat).

(** A loop whose body replaces element [i] by a function of it leaves a
    vector of the same length, each element in the range of the loop
    replaced, the others untouched. *)
Lemma for_from_pointwise (g : nat → double → double)
    (body : nat → list double → option (list double)) n i count u :
  (∀ j v b, j < n → v !! j = Some b → body j v = Some (<[j := g j b]> v)) →
  i + count ≤ n →
  i + count ≤ length u →
  ∃ u', for_from i count body u = Some u' ∧
        length u' = length u ∧
        ∀ j, u' !! j = if decide (i ≤ j < i + count)
                       then g j <$> u !! j else u !! j.
Proof.
  intros Hbody. revert i u.
  induction count as [|count IH]; intros i u Hn Hlen; simpl.
  { exists u. split_and!; [done..|]. intros j. case_decide; [lia|done]. }
  destruct (lookup_lt_is_Some_2 u i) as [b Hb]; [lia|].
  rewrite (Hbody _ _ b) by (done || lia). simpl.
  destruct (IH (S i) (<[i := g i b]> u)) as (u'&Hrun&Hlen'&Hu').
  { lia. }
  { rewrite length_insert. lia. }
  exists u'. split; [done|]. split; [by rewrite Hlen', length_insert|].
  intros j. rewrite Hu'.
  destruct (decide (j = i)) as [->|Hne].
  - rewrite decide_False by lia. rewrite decide_True by lia.
    rewrite list_lookup_insert_eq by lia. by rewrite Hb.
  - rewrite list_lookup_insert_ne by done.
    destruct (decide (S i ≤ j < S i + count));
      [rewrite decide_True by lia|rewrite decide_False by lia]; done.
Qed.

(** A loop that reaches the end of the vector it writes to is undefined. *)
Lemma for_from_short (body : nat → list double → option (list double))
    i count u :
  (∀ j v, length v ≤ j → body j v = None) →
  (∀ j v v', body j v = Some v' → length v' = length v) →
  length u < i + count →
  i ≤ length u →
  for_from i count body u = None.
Proof.
  intros Hout Hlen. revert i u.
  induction count as [|count IH]; intros i u Hshort Hi; simpl; [lia|].
  destruct (body i u) as [u1|] eqn:Hb; simpl; [|done].
  destruct (decide (length u ≤ i)) as [Hle|Hgt].
  { by rewrite (Hout _ _ Hle) in Hb. }
  apply IH; rewrite (Hlen _ _ _ Hb); lia.
Qed.

(** A loop whose body is undefined at an index of its range is
    undefined. *)
Lemma for_from_fails (body : nat → list double → option (list double))
    k i count u :
  (∀ v, body k v = None) →
  i ≤ k < i + count →
  for_from i count body u = None.
Proof.
  intros Hk. revert i u.
  induction count as [|count IH]; intros i u Hi; simpl; [lia|].
  destruct (decide (i = k)) as [->|Hne]; [by rewrite Hk|].
  destruct (body i u) as [u'|]; simpl; [|done]. apply IH. lia.
Qed.

Lemma for_from_length (body : nat → list double → option (list double))
    i count u u' :
  (∀ j v v', body j v = Some v' → length v' = length v) →
  for_from i count body u = Some u' → length u' = length u.
Proof.
  intros Hlen. revert i u.
  induction count as [|count IH]; intros i u; simpl; [by intros [= <-]|].
  destruct (body i u) as [v|] eqn:Hb; simpl; [|done].
  intros Hrun. rewrite (IH _ _ Hrun). by eapply Hlen.
Qed.

Lemma assign_at_Some v i (x : double) :
  i < length v → assign_at v i x = Some (<[i := x]> v).
Proof. intros Hi. unfold assign_at. by rewrite decide_True. Qed.

Lemma assign_at_None v i (x : double) :
  length v ≤ i → assign_at v i x = None.
Proof. intros Hi. unfold assign_at. rewrite decide_False; [done|lia]. Qed.

Lemma assign_at_length v v' i (x : double) :
  assign_at v i x = Some v' → length v' = length v.
Proof.
  unfold assign_at. case_decide; [|done]. intros [= <-]. apply length_insert.
Qed.

End Loops.

Section GridProofs.
Context {double : Type}.
Variables (zero forty_two : double) (add mul : double → double → double).

Implicit Types (u v u_bar dudt : list double) (grid : @Grid double)
  (f : double → double) (dt : double).

Lemma for_int_le {St} n (body : nat → St → option St) (s : St) :
  (Z.of_nat n ≤ INT_MAX)%Z → for_int n body s = for_from 0 n body s.
Proof. intros Hn. unfold for_int. by rewrite decide_True. Qed.

Lemma cell_average_computes u_bar grid f :
  length (cell_centers grid) ≤ length u_bar →
  (Z.of_nat (length (cell_centers grid)) ≤ INT_MAX)%Z →
  cell_average u_bar grid f
  = Some ((f <$> cell_centers grid)
          ++ drop (length (cell_centers grid)) u_bar).
Proof.
  intros Hlen Hint. unfold cell_average. rewrite for_int_le by done.
  set (n := length (cell_centers grid)) in *.
  destruct (for_from_pointwise
              (λ j b, from_option f b (cell_centers grid !! j))
              (λ i u_bar, c ← cell_centers grid !! i; assign_at u_bar i (f c))
              n 0 n u_bar) as (u'&->&Hlen'&Hu'); [|lia..|].
  { intros j v b Hj Hv.
    destruct (lookup_lt_is_Some_2 (cell_centers grid) j) as [c Hc]; [done|].
    rewrite Hc. simpl. apply assign_at_Some. by eapply lookup_lt_Some. }
  f_equal. apply list_eq. intros j. rewrite Hu'.
  destruct (decide (j < n)) as [Hj|Hj].
  - rewrite decide_True by lia.
    rewrite lookup_app_l by (rewrite length_fmap; done).
    rewrite list_lookup_fmap.
    destruct (lookup_lt_is_Some_2 (cell_centers grid) j) as [c Hc]; [done|].
    destruct (lookup_lt_is_Some_2 u_bar j) as [b Hb]; [lia|].
    by rewrite Hc, Hb.
  - rewrite decide_False by lia.
    rewrite lookup_app_r by (rewrite length_fmap; fold n; lia).
    rewrite length_fmap, lookup_drop. fold n. f_equal. lia.
Qed.

(** X8. When [u_bar] has fewer elements than the grid has cells,
    [cell_average] writes past the end of [u_bar]: the call is
    undefined. *)
Theorem cell_average_short u_bar grid f :
  length u_bar < length (cell_centers grid) →
  cell_average u_bar grid f = None.
Proof.
  intros Hlen. unfold cell_average, for_int. case_decide; [|done].
  apply for_from_short; [| |lia..].
  - intros j v Hj. destruct (cell_centers grid !! j); simpl; [|done].
    by apply assign_at_None.
  - intros j v v'. destruct (cell_centers grid !! j); simpl; [|done].
    apply assign_at_length.
Qed.


Lemma SpaceDependentRHS_call_computes (this : SpaceDependentRHS) dudt grid :
  SpaceDependentRHS_grid_ this = Some grid →
  length (cell_centers grid) ≤ length dudt →
  (Z.of_nat (length (cell_centers grid)) ≤ INT_MAX)%Z →
  SpaceDependentRHS_call forty_two this dudt
  = Some (replicate (length (cell_centers grid)) forty_two
          ++ drop (length (cell_centers grid)) dudt).
Proof.
  intros Hgrid Hlen Hint. unfold SpaceDependentRHS_call.
  rewrite Hgrid. simpl. rewrite for_int_le by done.
  set (n := length (cell_centers grid)) in *.
  destruct (for_from_pointwise (λ _ _, forty_two)
              (λ i dudt, assign_at dudt i forty_two)
              n 0 n dudt) as (u'&->&Hlen'&Hu'); [|lia..|].
  { intros j v b Hj Hv. apply assign_at_Some. by eapply lookup_lt_Some. }
  f_equal. apply list_eq. intros j. rewrite Hu'.
  destruct (decide (j < n)) as [Hj|Hj].
  - rewrite decide_True by lia.
    rewrite lookup_app_l by (rewrite length_replicate; done).
    rewrite lookup_replicate_2 by done.
    destruct (lookup_lt_is_Some_2 dudt j) as [b Hb]; [lia|].
    by rewrite Hb.
  - rewrite decide_False by lia.
    rewrite lookup_app_r by (rewrite length_replicate; lia).
    rewrite length_replicate, lookup_drop. f_equal. lia.
Qed.

Lemma SomeODESolver_call_computes (this : SomeODESolver) u1 u0 dt grid :
  SpaceDependentRHS_grid_ (rhs_ this) = Some grid →
  length (cell_centers grid) ≤ length u1 →
  length u1 ≤ length u0 →
  (Z.of_nat (length u1) ≤ INT_MAX)%Z →
  SomeODESolver_call forty_two add mul this u1 u0 dt
  = Some (zip_with (λ a b, add a (mul dt b)) u0
            (replicate (length (cell_centers grid)) forty_two
             ++ drop (length (cell_centers grid)) u1)).
Proof.
  intros Hgrid Hn Hlen Hint. unfold SomeODESolver_call.
  rewrite (SpaceDependentRHS_call_computes _ _ _ Hgrid) by (done || lia).
  simpl. set (n := length (cell_centers grid)) in *.
  set (v := replicate n forty_two ++ drop n u1).
  assert (Hv : length v = length u1).
  { unfold v. rewrite length_app, length_replicate, length_drop. lia. }
  rewrite for_int_le by (rewrite Hv; done).
  destruct (for_from_pointwise
              (λ j b, from_option (λ a, add a (mul dt b)) b (u0 !! j))
              (λ i x, a ← u0 !! i; b ← x !! i; assign_at x i (add a (mul dt b)))
              (length v) 0 (length v) v) as (u'&->&Hlen'&Hu'); [|lia..|].
  { intros j x b Hj Hx.
    destruct (lookup_lt_is_Some_2 u0 j) as [a Ha]; [lia|].
    rewrite Ha, Hx. simpl. apply assign_at_Some. by eapply lookup_lt_Some. }
  f_equal. apply list_eq. intros j. rewrite Hu', lookup_zip_with.
  destruct (decide (j < length v)) as [Hj|Hj].
  - rewrite decide_True by lia.
    destruct (lookup_lt_is_Some_2 u0 j) as [a Ha]; [lia|].
    destruct (lookup_lt_is_Some_2 v j) as [b Hb]; [lia|].
    by rewrite Ha, Hb.
  - rewrite decide_False by lia.
    rewrite (lookup_ge_None_2 v j) by lia.
    by destruct (u0 !! j).
Qed.

(** X7. When the vector [u_bar] has at least as many elements as the grid
    has cells (and the grid no more than [INT_MAX]), [cell_average]
    returns with [f] of each cell center in the first elements of [u_bar],
    in the order of the cells, and the elements after them as they were:
    the length of [u_bar] is not changed. *)
Theorem cell_average_spec u_bar grid f :
  length (cell_centers grid) ≤ length u_bar →
  (Z.of_nat (length (cell_centers grid)) ≤ INT_MAX)%Z →
  cell_average u_bar grid f
  = Some ((f <$> cell_centers grid)
          ++ drop (length (cell_centers grid)) u_bar).
Proof. apply cell_average_computes. Qed.

(** On two distinct vectors of the store, the member function is
    [SomeODESolver_call] on their values. *)
Lemma SomeODESolver_operator_distinct (this : SomeODESolver)
    (vs : gmap nat (list double)) (r1 r0 : nat) v1 v0 dt :
  r1 ≠ r0 →
  vs !! r1 = Some v1 →
  vs !! r0 = Some v0 →
  SomeODESolver_operator forty_two add mul this vs r1 r0 dt
  = (v ← SomeODESolver_call forty_two add mul this v1 v0 dt;
     Some (<[r1 := v]> vs)).
Proof.
  intros Hne H1 H0. unfold SomeODESolver_operator, SomeODESolver_call.
  rewrite H1. simpl.
  destruct (SpaceDependentRHS_call forty_two (rhs_ this) v1) as [x|];
    simpl; [|done].
  unfold for_int. case_decide; [|done].
  assert (Hloop : ∀ count i (ws : gmap nat (list double)) y,
    ws !! r1 = Some y → ws !! r0 = Some v0 →
    for_from i count
      (λ i vs,
         x0 ← vs !! r0; x1 ← vs !! r1; a ← x0 !! i; b ← x1 !! i;
         x1 ← assign_at x1 i (add a (mul dt b)); Some (<[r1 := x1]> vs)) ws
    = (y' ← for_from i count
              (λ i u, a ← v0 !! i; b ← u !! i;
                      assign_at u i (add a (mul dt b))) y;
       Some (<[r1 := y']> ws))).
  { induction count as [|count IH]; intros i ws y Hy Hv0; simpl.
    { by rewrite insert_id. }
    rewrite Hy, Hv0. simpl.
    destruct (v0 !! i) as [a|]; simpl; [|done].
    destruct (y !! i) as [b|]; simpl; [|done].
    destruct (assign_at y i (add a (mul dt b))) as [y1|]; simpl; [|done].
    rewrite (IH (S i) (<[r1 := y1]> ws) y1);
      [|apply lookup_insert_eq|by rewrite lookup_insert_ne].
    destruct (for_from (S i) count _ y1) as [y2|]; simpl; [|done].
    by rewrite insert_insert_eq. }
  rewrite (Hloop _ _ _ x);
    [|apply lookup_insert_eq|by rewrite lookup_insert_ne].
  destruct (for_from 0 (length x) _ x) as [y|]; simpl; [|done].
  by rewrite insert_insert_eq.
Qed.

(** On one vector passed for both, the loop reads what it has written. *)
Lemma SomeODESolver_operator_aliased (this : SomeODESolver)
    (vs : gmap nat (list double)) (r : nat) v dt :
  vs !! r = Some v →
  SomeODESolver_operator forty_two add mul this vs r r dt
  = (x ← SpaceDependentRHS_call forty_two (rhs_ this) v;
     y ← for_int (length x)
           (λ i u, b ← u !! i; assign_at u i (add b (mul dt b))) x;
     Some (<[r := y]> vs)).
Proof.
  intros Hv. unfold SomeODESolver_operator. rewrite Hv. simpl.
  destruct (SpaceDependentRHS_call forty_two (rhs_ this) v) as [x|];
    simpl; [|done].
  unfold for_int. case_decide; [|done].
  assert (Hloop : ∀ count i (ws : gmap nat (list double)) y,
    ws !! r = Some y →
    for_from i count
      (λ i vs,
         x0 ← vs !! r; x1 ← vs !! r; a ← x0 !! i; b ← x1 !! i;
         x1 ← assign_at x1 i (add a (mul dt b)); Some (<[r := x1]> vs)) ws
    = (y' ← for_from i count
              (λ i u, b ← u !! i; assign_at u i (add b (mul dt b))) y;
       Some (<[r := y']> ws))).
  { induction count as [|count IH]; intros i ws y Hy; simpl.
    { by rewrite insert_id. }
    rewrite Hy. simpl.
    destruct (y !! i) as [b|]; simpl; [|done].
    destruct (assign_at y i (add b (mul dt b))) as [y1|]; simpl; [|done].
    rewrite (IH (S i) (<[r := y1]> ws) y1); [|apply lookup_insert_eq].
    destruct (for_from (S i) count _ y1) as [y2|]; simpl; [|done].
    by rewrite insert_insert_eq. }
  rewrite (Hloop _ _ _ x); [|apply lookup_insert_eq].
  destruct (for_from 0 (length x) _ x) as [y|]; simpl; [|done].
  by rewrite insert_insert_eq.
Qed.

(** X9. A solver made for a grid of [n] cells is called on the references
    [r1] (for [u1]) and [r0] (for [u0]) to vectors of a store, [u1] of at
    least [n] elements and [u0] at least as long as [u1].  It returns with
    the vector at [r1] of the same length and no other vector changed.
    When [r1] and [r0] are two vectors, [u1[i] = u0[i] + dt * 42.0] for
    every cell [i < n], whatever [u1] held there, and
    [u1[i] = u0[i] + dt * u1[i]] past the cells.  When they are one
    vector, [u0[i]] is what the call has written there:
    [u1[i] = 42.0 + dt * 42.0] for every cell and
    [u1[i] = u1[i] + dt * u1[i]] past the cells. *)
Theorem SomeODESolver_operator_spec (this : SomeODESolver)
    (vs : gmap nat (list double)) (r1 r0 : nat) v1 v0 dt grid :
  SpaceDependentRHS_grid_ (rhs_ this) = Some grid →
  vs !! r1 = Some v1 →
  vs !! r0 = Some v0 →
  length (cell_centers grid) ≤ length v1 →
  length v1 ≤ length v0 →
  (Z.of_nat (length v1) ≤ INT_MAX)%Z →
  let w := replicate (length (cell_centers grid)) forty_two
           ++ drop (length (cell_centers grid)) v1 in
  let v := zip_with (λ a b, add a (mul dt b))
             (if decide (r1 = r0) then w else v0) w in
  SomeODESolver_operator forty_two add mul this vs r1 r0 dt
  = Some (<[r1 := v]> vs) ∧
  length v = length v1.
Proof.
  intros Hgrid H1 H0 Hn Hlen Hint w v.
  assert (Hw : length w = length v1).
  { unfold w. rewrite length_app, length_replicate, length_drop. lia. }
  split.
  - unfold v. destruct (decide (r1 = r0)) as [<-|Hne].
    + rewrite (SomeODESolver_operator_aliased _ _ _ _ _ H1).
      rewrite (SpaceDependentRHS_call_computes _ _ _ Hgrid) by (done || lia).
      simpl. fold w. rewrite for_int_le by (rewrite Hw; done).
      destruct (for_from_pointwise (λ _ b, add b (mul dt b))
                  (λ i u, b ← u !! i; assign_at u i (add b (mul dt b)))
                  (length w) 0 (length w) w) as (u'&->&Hlen'&Hu'); [|lia..|].
      { intros j x b Hj Hx. rewrite Hx. simpl.
        apply assign_at_Some. by eapply lookup_lt_Some. }
      simpl. do 2 f_equal. apply list_eq. intros j.
      rewrite Hu', lookup_zip_with.
      destruct (decide (j < length w)) as [Hj|Hj].
      * rewrite decide_True by lia.
        destruct (lookup_lt_is_Some_2 w j) as [b Hb]; [lia|].
        by rewrite Hb.
      * rewrite decide_False by lia. by rewrite (lookup_ge_None_2 w j) by lia.
    + rewrite (SomeODESolver_operator_distinct _ _ _ _ _ _ _ Hne H1 H0).
      by rewrite (SomeODESolver_call_computes _ _ _ _ _ Hgrid Hn Hlen Hint).
  - unfold v. rewrite length_zip_with, Hw.
    destruct (decide (r1 = r0)); [rewrite Hw|]; lia.
Qed.

(** X11. When [u0] has fewer elements than [u1], the solver reads past
    the end of [u0] (if it gets that far): the call is undefined. *)
Theorem SomeODESolver_call_short (this : SomeODESolver) u1 u0 dt :
  length u0 < length u1 →
  SomeODESolver_call forty_two add mul this u1 u0 dt = None.
Proof.
  intros Hlen. unfold SomeODESolver_call.
  destruct (SpaceDependentRHS_call forty_two (rhs_ this) u1) as [v|] eqn:Hrhs;
    simpl; [|done].
  assert (Hv : length v = length u1).
  { revert Hrhs. unfold SpaceDependentRHS_call.
    destruct (SpaceDependentRHS_grid_ (rhs_ this)) as [grid|]; simpl; [|done].
    unfold for_int. case_decide; [|done].
    apply for_from_length. intros j x x'. apply assign_at_length. }
  unfold for_int. case_decide; [|done].
  apply for_from_fails with (k := length u0); [|lia].
  intros x. by rewrite (lookup_ge_None_2 u0).
Qed.

(** X10. The steps of [make_simulation] and [main], for a grid of any
    size: with a grid of [nx * ny] cells made by [make_uniform_grid], the
    cell averages of [f] written into a vector of [nx * ny] zeros and one
    step of the solver made by [make_ode_solver] for the same grid, from
    these averages into another vector of [nx * ny] zeros, every element
    of the result is [f 0.0 + dt * 42.0]. *)
Theorem simulation_step nx ny f dt :
  (0 ≤ nx * ny ≤ INT_MAX)%Z →
  ∃ grid,
    make_uniform_grid zero nx ny = Made (Some grid) ∧
    length (cell_centers grid) = Z.to_nat (nx * ny) ∧
    (u0 ← CellAverage_call {| CellAverage_grid_ := Some grid |}
            (replicate (Z.to_nat (nx * ny)) zero) f;
     SomeODESolver_call forty_two add mul (make_ode_solver (Some grid))
       (replicate (Z.to_nat (nx * ny)) zero) u0 dt)
    = Some (replicate (Z.to_nat (nx * ny))
              (add (f zero) (mul dt forty_two))).
Proof.
  intros [Hpos Hmax]. set (n := Z.to_nat (nx * ny)).
  exists {| cell_centers := replicate n zero |}.
  assert (Hn : (Z.of_nat n ≤ INT_MAX)%Z) by (unfold n; lia).
  split_and!.
  - unfold make_uniform_grid. rewrite decide_True by (unfold INT_MIN; lia).
    by rewrite decide_True.
  - simpl. apply length_replicate.
  - unfold CellAverage_call. simpl.
    rewrite cell_average_computes; simpl; rewrite ?length_replicate;
      [|done..].
    simpl. rewrite fmap_replicate, drop_replicate, Nat.sub_diag, app_nil_r.
    rewrite (SomeODESolver_call_computes _ _ _ _
               {| cell_centers := replicate n zero |});
      simpl; rewrite ?length_replicate; [|done..].
    rewrite drop_replicate, Nat.sub_diag, app_nil_r.
    by rewrite zip_with_replicate.
Qed.

End GridProofs.

Lemma cell_average_spec_witness :
  cell_average [1; 2; 3]%Z {| cell_centers := [10; 20]%Z |} Z.succ
  = Some [11; 21; 3]%Z.
Proof.
  apply (cell_average_spec [1; 2; 3]%Z {| cell_centers := [10; 20]%Z |} Z.succ);
    [simpl; lia|vm_compute; discriminate].
Defined.

Lemma cell_average_short_witness :
  cell_average [1]%Z {| cell_centers := [10; 20]%Z |} Z.succ = None.
Proof.
  apply (cell_average_short [1]%Z {| cell_centers := [10; 20]%Z |} Z.succ).
  simpl. lia.
Defined.

Lemma SomeODESolver_operator_spec_witness :
  SomeODESolver_operator 42%Z Z.add Z.mul
    (make_ode_solver (Some {| cell_centers := [0; 0]%Z |}))
    {[5 := [7; 8; 9]%Z]} 5 5 2%Z
  = Some {[5 := [126; 126; 27]%Z]} ∧
  length [126; 126; 27]%Z = 3.
Proof.
  pose proof (SomeODESolver_operator_spec 42%Z Z.add Z.mul
                (make_ode_solver (Some {| cell_centers := [0; 0]%Z |}))
                {[5 := [7; 8; 9]%Z]} 5 5 [7; 8; 9]%Z [7; 8; 9]%Z 2%Z
                {| cell_centers := [0; 0]%Z |}) as Hs.
  simpl in Hs. apply Hs; [reflexivity..|lia|lia|vm_compute; discriminate].
Defined.

(** The same call on two distinct vectors of the store. *)
Lemma SomeODESolver_operator_two_vectors :
  SomeODESolver_operator 42%Z Z.add Z.mul
    (make_ode_solver (Some {| cell_centers := [0; 0]%Z |}))
    {[5 := [7; 8; 9]%Z; 6 := [100; 200; 300; 400]%Z]} 5 6 2%Z
  = Some {[5 := [184; 284; 318]%Z; 6 := [100; 200; 300; 400]%Z]}.
Proof. vm_compute. reflexivity. Qed.

Lemma simulation_step_witness :
  ∃ grid,
    make_uniform_grid 0%Z 2 3 = Made (Some grid) ∧
    length (cell_centers grid) = 6 ∧
    (u0 ← CellAverage_call {| CellAverage_grid_ := Some grid |}
            (replicate 6 0%Z) Z.succ;
     SomeODESolver_call 42%Z Z.add Z.mul (make_ode_solver (Some grid))
       (replicate 6 0%Z) u0 2%Z)
    = Some (replicate 6 85%Z).
Proof.
  apply (simulation_step 0%Z 42%Z Z.add Z.mul 2 3 Z.succ 2%Z).
  vm_compute. split; discriminate.
Defined.

Lemma SomeODESolver_call_short_witness :
  SomeODESolver_call 42%Z Z.add Z.mul
    (make_ode_solver (Some {| cell_centers := [0]%Z |}))
    [7; 8]%Z [100]%Z 2%Z = None.
Proof.
  apply (SomeODESolver_call_short 42%Z Z.add Z.mul
           (make_ode_solver (Some {| cell_centers := [0]%Z |}))
           [7; 8]%Z [100]%Z 2%Z).
  simpl. lia.
Defined.

Lemma blocks_are_balanced_witness :
  wf foo_bar ∧
  leaves (λ s', wf s' ∧ dom (files s') = dom (files foo_bar))
    (exec (Seq (Assign 0 1)
             (TryCatch (Scope 2 "baz" (ThrowExn (runtime_error "oops.")))))
       foo_bar).
Proof.
  assert (Hwf : wf foo_bar) by exact (run_ret_wf _ _ foo_bar_reached).
  split; [exact Hwf|]. by apply (blocks_are_balanced foo_bar).
Defined.
